(** * The reset protocol of the wa-sqlite demo worker

    Embedding of [maybeReset] (demo/demo-worker.js, lines 126-177) and of the
    way it drives the Web Locks broker ([navigator.locks]).

    The worker talks to three outside parties: the lock broker, the console
    and the storage that the reset clears (OPFS and IndexedDB).  The
    function is embedded as a program over these interactions; two
    semantics are given to such programs:
    - [run]: one worker alone, the answers of the outside world supplied as a
      script, producing the list of observable interactions and the way the
      promise of [maybeReset] ends;
    - [sys_step]: several workers interleaved over one shared broker.

    The rest of the worker follows: the tables of builds and file systems
    and the choice among them by the query string (lines 5-58), the start
    of the worker after [maybeReset] ([startup], [worker_main], lines
    54-124), the listener that runs the queries ([on_message], lines 89-117)
    and [cvtErrorToCloneable] (lines 179-197). *)

From Stdlib Require Import Ascii.
From stdpp Require Import base list strings.

Local Open Scope string_scope.
Local Open Scope list_scope.

(** ** Data model *)

(** [mode] option of [navigator.locks.request]. *)
Inductive LockMode := Exclusive | Shared.

(** The [Lock] object handed to the callback of a granted request. *)
Record Lock := mkLock { name : string; mode : LockMode }.

(** A thrown [Error] (or the rejection reason of a promise). *)
Inductive error := Error (message : string).

(** [console.log] and [console.warn]. *)
Inductive level := log | warn.

(** The two storage clearings of the reset: the loop over
    [root.keys()] with [removeEntry] (lines 139-145) and the
    [indexedDB.deleteDatabase] calls (lines 148-157). *)
Inductive storage_op := ClearOPFS | ClearIndexedDB.

(** How an awaited promise settles. *)
Inductive settled := Fulfilled | Rejected (e : error).

Definition outer_name : string := "demo-worker-outer".
Definition inner_name : string := "demo-worker-inner".

#[global] Instance LockMode_eq_dec : EqDecision LockMode.
Proof. solve_decision. Defined.
#[global] Instance Lock_eq_dec : EqDecision Lock.
Proof. solve_decision. Defined.
#[global] Instance error_eq_dec : EqDecision error.
Proof. solve_decision. Defined.
#[global] Instance level_eq_dec : EqDecision level.
Proof. solve_decision. Defined.
#[global] Instance storage_op_eq_dec : EqDecision storage_op.
Proof. solve_decision. Defined.
#[global] Instance settled_eq_dec : EqDecision settled.
Proof. solve_decision. Defined.

(** ** Programs over the worker's interactions *)

(** - [LocksRequest n m ia k]: [navigator.locks.request(n, {mode: m,
      ifAvailable: ia}, callback)]; [k] receives the callback's argument,
      a [Lock] or [null].
    - [Settle l k]: the promise that the callback of the request granted as
      [l] returned settles, which is when the broker releases [l].
    - [Console lv msg k]: [console.log] / [console.warn].
    - [Await op k]: [await] of a storage clearing, which fulfils or rejects. *)
Inductive prog (A : Type) : Type :=
| Ret (a : A)
| Throw (e : error)
| LocksRequest (n : string) (m : LockMode) (ifAvailable : bool)
    (k : option Lock → prog A)
| Settle (l : Lock) (k : prog A)
| Console (lv : level) (msg : string) (k : prog A)
| Await (op : storage_op) (k : settled → prog A).

Arguments Ret {A} a.
Arguments Throw {A} e.
Arguments LocksRequest {A} n m ifAvailable k.
Arguments Settle {A} l k.
Arguments Console {A} lv msg k.
Arguments Await {A} op k.

(** Sequencing of awaited steps: a rejection skips what follows. *)
Fixpoint prog_bind {A B : Type} (f : A → prog B) (p : prog A) : prog B :=
  match p with
  | Ret a => f a
  | Throw e => Throw e
  | LocksRequest n m ia k => LocksRequest n m ia (λ l, prog_bind f (k l))
  | Settle l k => Settle l (prog_bind f k)
  | Console lv msg k => Console lv msg (prog_bind f k)
  | Await op k => Await op (λ r, prog_bind f (k r))
  end.

#[global] Instance prog_mret : MRet prog := @Ret.
#[global] Instance prog_mbind : MBind prog := @prog_bind.

(** The broker holds a granted lock until the promise returned by the
    callback settles, fulfilled or rejected; the promise of [request] then
    settles the same way. *)
Fixpoint held_while {A : Type} (l : Lock) (body : prog A) : prog A :=
  match body with
  | Ret a => Settle l (Ret a)
  | Throw e => Settle l (Throw e)
  | LocksRequest n m ia k => LocksRequest n m ia (λ x, held_while l (k x))
  | Settle l' k => Settle l' (held_while l k)
  | Console lv msg k => Console lv msg (held_while l k)
  | Await op k => Await op (λ r, held_while l (k r))
  end.

(** [await navigator.locks.request(n, {mode, ifAvailable}, async lock => ...)]:
    with a lock the body runs while the lock is held, with [null] it just
    runs. *)
Definition locks_request {A : Type} (n : string) (m : LockMode)
    (ifAvailable : bool) (callback : option Lock → prog A) : prog A :=
  LocksRequest n m ifAvailable (λ lock,
    match lock with
    | Some l => held_while l (callback lock)
    | None => callback lock
    end).

Definition console_log (msg : string) : prog unit := Console log msg (Ret ()).
Definition console_warn (msg : string) : prog unit := Console warn msg (Ret ()).

Definition await (op : storage_op) : prog unit :=
  Await op (λ r, match r with Fulfilled => Ret () | Rejected e => Throw e end).

(** ** [maybeReset] *)

(** Lines 128-134.  The callback of the outer request returns a promise whose
    resolver is handed out as [outerLockReleaser]: the outer lock is held
    until that function is called.  The request has no options: mode
    exclusive, waiting until granted. *)
Definition outerLockReleaser (lock : option Lock) : prog unit :=
  match lock with
  | Some l => Settle l (Ret ())
  | None => Ret ()
  end.

Definition acquire_outer : prog (option Lock) :=
  LocksRequest outer_name Exclusive false Ret.

(** Lines 137-160, the callback of the probe. *)
Definition reset_callback (lock : option Lock) : prog unit :=
  match lock with
  | Some _ =>
      console_log "clearing OPFS and IndexedDB";;
      await ClearOPFS;;
      await ClearIndexedDB
  | None =>
      console_warn "reset skipped because another instance already holds the lock"
  end.

(** Line 164. *)
Definition marker_mode (exclusive : bool) : LockMode :=
  if exclusive then Exclusive else Shared.

(** Lines 163-173.  With a lock the callback resolves the awaited promise and
    returns a promise that never settles, so the lock is kept; with [null] it
    rejects. *)
Definition mark_in_use (exclusive : bool) : prog unit :=
  LocksRequest inner_name (marker_mode exclusive) true (λ lock,
    match lock with
    | Some _ => Ret ()
    | None => Throw (Error "failed to acquire inner lock")
    end).

(** Lines 126-177; [reset] is [searchParams.has('reset')], [exclusive] is
    [searchParams.has('exclusive')]. *)
Definition maybeReset (reset exclusive : bool) : prog unit :=
  if reset then
    outer ← acquire_outer;
    locks_request inner_name Exclusive true reset_callback;;
    mark_in_use exclusive;;
    outerLockReleaser outer
  else Ret ().

(** ** One worker against a scripted outside world *)

(** What the worker is seen doing. *)
Inductive obs :=
| ORequest (n : string) (m : LockMode) (ifAvailable : bool) (granted : bool)
| ORelease (l : Lock)
| OConsole (lv : level) (msg : string)
| OStorage (op : storage_op) (r : settled).

#[global] Instance obs_eq_dec : EqDecision obs.
Proof. solve_decision. Defined.

(** How the promise of the program ends; [Pending] when it is still waiting
    for the outside world. *)
Inductive outcome (A : Type) := Returned (a : A) | Thrown (e : error) | Pending.
Arguments Returned {A} a.
Arguments Thrown {A} e.
Arguments Pending {A}.

(** An answer of the outside world: of the broker to a request, or of the
    storage to a clearing. *)
Inductive answer := ALock (granted : bool) | AStorage (r : settled).

Definition observe {A : Type} (o : obs) (r : list obs * outcome A)
    : list obs * outcome A :=
  (o :: r.1, r.2).

(** A request without [ifAvailable] that is not granted stays queued; a
    script that runs out, or answers something else than what the worker
    waits for, leaves the worker waiting. *)
Fixpoint run {A : Type} (p : prog A) (script : list answer)
    : list obs * outcome A :=
  match p with
  | Ret a => ([], Returned a)
  | Throw e => ([], Thrown e)
  | LocksRequest n m ia k =>
      match script with
      | ALock true :: script' =>
          observe (ORequest n m ia true) (run (k (Some (mkLock n m))) script')
      | ALock false :: script' =>
          if ia then observe (ORequest n m ia false) (run (k None) script')
          else ([], Pending)
      | _ => ([], Pending)
      end
  | Settle l k => observe (ORelease l) (run k script)
  | Console lv msg k => observe (OConsole lv msg) (run k script)
  | Await op k =>
      match script with
      | AStorage r :: script' => observe (OStorage op r) (run (k r) script')
      | _ => ([], Pending)
      end
  end.

(** ** Reading a list of observations *)

Definition outer_lock : Lock := mkLock outer_name Exclusive.
Definition probe_lock : Lock := mkLock inner_name Exclusive.
Definition marker_lock (exclusive : bool) : Lock :=
  mkLock inner_name (marker_mode exclusive).

Definition is_request_of (n : string) (o : obs) : bool :=
  match o with
  | ORequest n' _ _ _ => String.eqb n n'
  | _ => false
  end.

(** The requests for the inner lock, in order: the probe, then the marker. *)
Definition inner_requests (t : list obs) : list obs :=
  List.filter (is_request_of inner_name) t.

Definition probe_of (t : list obs) : option obs := inner_requests t !! 0.
Definition marker_of (t : list obs) : option obs := inner_requests t !! 1.

Definition is_storage (o : obs) : bool :=
  match o with
  | OStorage _ _ => true
  | _ => false
  end.

(** Whether the destructive reset was started. *)
Definition delegate_invoked (t : list obs) : bool := existsb is_storage t.

Fixpoint release_lock (l : Lock) (held : list Lock) : list Lock :=
  match held with
  | [] => []
  | l' :: held' => if decide (l = l') then held' else l' :: release_lock l held'
  end.

Definition after_obs (held : list Lock) (o : obs) : list Lock :=
  match o with
  | ORequest n m _ true => mkLock n m :: held
  | ORelease l => release_lock l held
  | _ => held
  end.

(** The locks the worker holds after the observations [t]. *)
Definition locks_held (t : list obs) : list Lock := foldl after_obs [] t.

(** The observations before the marker request, which is the second request
    for the inner lock. *)
Fixpoint upto_marker (probed : bool) (t : list obs) : list obs :=
  match t with
  | [] => []
  | o :: t' =>
      if is_request_of inner_name o then
        if probed then [] else o :: upto_marker true t'
      else o :: upto_marker probed t'
  end.

(** Two observations that differ at most in the mode of a request. *)
Definition same_but_mode (o1 o2 : obs) : Prop :=
  match o1, o2 with
  | ORequest n1 _ ia1 g1, ORequest n2 _ ia2 g2 => n1 = n2 ∧ ia1 = ia2 ∧ g1 = g2
  | _, _ => o1 = o2
  end.

(** ** All runs of [maybeReset] with a reset requested *)

Definition skipped_msg : string :=
  "reset skipped because another instance already holds the lock".
Definition clearing_msg : string := "clearing OPFS and IndexedDB".
Definition marker_error : error := Error "failed to acquire inner lock".

Definition o_outer : obs := ORequest outer_name Exclusive false true.
Definition o_probe (granted : bool) : obs :=
  ORequest inner_name Exclusive true granted.
Definition o_marker (exclusive granted : bool) : obs :=
  ORequest inner_name (marker_mode exclusive) true granted.

(** The mark-in-use phase and the release of the outer lock, from the point
    where the probe is over. *)
Inductive marking (exclusive : bool) : list obs → outcome unit → Prop :=
| marking_waits : marking exclusive [] Pending
| marking_fails : marking exclusive [o_marker exclusive false] (Thrown marker_error)
| marking_done :
    marking exclusive [o_marker exclusive true; ORelease outer_lock] (Returned ()).

(** The probe and the reset, from the point where the outer lock is held.
    The boolean tells whether the phase is over with the worker going on. *)
Inductive probing : list obs → outcome unit → bool → Prop :=
| probing_waits : probing [] Pending false
| probing_skips : probing [o_probe false; OConsole warn skipped_msg] Pending true
| probing_opfs_waits :
    probing [o_probe true; OConsole log clearing_msg] Pending false
| probing_opfs_fails e :
    probing [o_probe true; OConsole log clearing_msg;
             OStorage ClearOPFS (Rejected e); ORelease probe_lock]
      (Thrown e) false
| probing_idb_waits :
    probing [o_probe true; OConsole log clearing_msg;
             OStorage ClearOPFS Fulfilled] Pending false
| probing_idb_fails e :
    probing [o_probe true; OConsole log clearing_msg;
             OStorage ClearOPFS Fulfilled; OStorage ClearIndexedDB (Rejected e);
             ORelease probe_lock]
      (Thrown e) false
| probing_resets :
    probing [o_probe true; OConsole log clearing_msg;
             OStorage ClearOPFS Fulfilled; OStorage ClearIndexedDB Fulfilled;
             ORelease probe_lock]
      Pending true.

Inductive reset_run (exclusive : bool) : list obs → outcome unit → Prop :=
| reset_run_queued : reset_run exclusive [] Pending
| reset_run_stops t o :
    probing t o false → reset_run exclusive (o_outer :: t) o
| reset_run_marks t t' o :
    probing t Pending true → marking exclusive t' o →
    reset_run exclusive (o_outer :: t ++ t') o.

(** ** Several workers over one broker *)

(** An entry of the broker's set of held locks: the worker the lock was
    granted to, and the lock. *)
Record held_lock := mkHeld { owner : nat; lock_of : Lock }.

#[global] Instance held_lock_eq_dec : EqDecision held_lock.
Proof. solve_decision. Defined.

Definition broker := list held_lock.

(** Modelled from the spec: the lock broker is [navigator.locks] of the
    browser, outside the repository.  Section 3 of the specification gives
    its rule: an exclusive lock excludes every other holder of the same name,
    a shared lock excludes only exclusive holders. *)
Definition conflicts (n : string) (m : LockMode) (h : held_lock) : bool :=
  String.eqb n (name (lock_of h)) &&
  match m, mode (lock_of h) with
  | Shared, Shared => false
  | _, _ => true
  end.

Definition grantable (b : broker) (n : string) (m : LockMode) : bool :=
  forallb (λ h, negb (conflicts n m h)) b.

(** Releasing removes one entry of the worker for that lock. *)
Fixpoint release (i : nat) (l : Lock) (b : broker) : broker :=
  match b with
  | [] => []
  | h :: b' => if decide (h = mkHeld i l) then b' else h :: release i l b'
  end.

(** One interaction of worker [i] with the broker [b]; [r] is how the storage
    clearing settles when the worker awaits one.  A request is granted when
    the broker can grant it; otherwise it yields [null] with [ifAvailable]
    and waits (no step) without.  A worker whose promise has settled does
    nothing more. *)
Definition worker_step (i : nat) (r : settled) (b : broker) (p : prog unit)
    : option (obs * broker * prog unit) :=
  match p with
  | Ret _ | Throw _ => None
  | LocksRequest n m ia k =>
      if grantable b n m then
        Some (ORequest n m ia true, mkHeld i (mkLock n m) :: b,
              k (Some (mkLock n m)))
      else if ia then Some (ORequest n m ia false, b, k None)
      else None
  | Settle l k => Some (ORelease l, release i l b, k)
  | Console lv msg k => Some (OConsole lv msg, b, k)
  | Await op k => Some (OStorage op r, b, k r)
  end.

(** A worker runs [maybeReset] ([Live]) until it is terminated ([Gone]),
    which releases every lock it holds. *)
Inductive worker := Live (p : prog unit) | Gone.

Record system := mkSystem { workers : list worker; held : broker }.

Inductive action := Step (i : nat) (r : settled) | Exit (i : nat).

Definition sys_step (a : action) (s : system) : option system :=
  match a with
  | Step i r =>
      match workers s !! i with
      | Some (Live p) =>
          match worker_step i r (held s) p with
          | Some (_, b', p') => Some (mkSystem (<[i := Live p']> (workers s)) b')
          | None => None
          end
      | _ => None
      end
  | Exit i =>
      match workers s !! i with
      | Some (Live _) =>
          Some (mkSystem (<[i := Gone]> (workers s))
                  (filter (λ h, owner h ≠ i) (held s)))
      | _ => None
      end
  end.

(** The workers start [maybeReset], each with its own query parameters
    [(reset, exclusive)], and no lock is held. *)
Definition init (params : list (bool * bool)) : system :=
  mkSystem ((λ q, Live (maybeReset q.1 q.2)) <$> params) [].

Fixpoint exec (schedule : list action) (s : system) : option system :=
  match schedule with
  | [] => Some s
  | a :: schedule' =>
      match sys_step a s with
      | Some s' => exec schedule' s'
      | None => None
      end
  end.

Inductive reachable (params : list (bool * bool)) : system → Prop :=
| reachable_init : reachable params (init params)
| reachable_step a s s' :
    reachable params s → sys_step a s = Some s' → reachable params s'.

(** A worker is inside the destructive reset when it awaits one of the
    storage clearings. *)
Definition delegate_active (p : prog unit) : bool :=
  match p with
  | Await _ _ => true
  | _ => false
  end.

(** ** Program points of [maybeReset] *)

(** How far the callback of the probe has got, with a lock. *)
Inductive stage := SLog | SOpfs | SIdb | SEnd (r : settled).

Definition stage_code (st : stage) : prog unit :=
  match st with
  | SLog => reset_callback (Some probe_lock)
  | SOpfs => await ClearOPFS;; await ClearIndexedDB
  | SIdb => await ClearIndexedDB
  | SEnd Fulfilled => Ret ()
  | SEnd (Rejected e) => Throw e
  end.

Inductive point :=
| Entry (reset exclusive : bool)
| Probing (exclusive : bool)
| InCallback (exclusive : bool) (st : stage)
| Warning (exclusive : bool)
| Marking (exclusive : bool)
| Unlocking (exclusive : bool)
| Finished (exclusive : bool)
| Failed (exclusive : bool) (e : error).

(** What is left of [maybeReset] once the probe is over. *)
Definition after_probe (exclusive : bool) : prog unit :=
  mark_in_use exclusive;; outerLockReleaser (Some outer_lock).

Definition code_at (pt : point) : prog unit :=
  match pt with
  | Entry reset exclusive => maybeReset reset exclusive
  | Probing exclusive =>
      locks_request inner_name Exclusive true reset_callback;;
      after_probe exclusive
  | InCallback exclusive st =>
      held_while probe_lock (stage_code st);; after_probe exclusive
  | Warning exclusive => reset_callback None;; after_probe exclusive
  | Marking exclusive => after_probe exclusive
  | Unlocking _ => outerLockReleaser (Some outer_lock)
  | Finished _ => Ret ()
  | Failed _ e => Throw e
  end.

(** The locks a worker holds at a point. *)
Definition holds (pt : point) : list Lock :=
  match pt with
  | Entry _ _ => []
  | Probing _ | Warning _ | Marking _ | Failed _ _ => [outer_lock]
  | InCallback _ _ => [probe_lock; outer_lock]
  | Unlocking exclusive => [marker_lock exclusive; outer_lock]
  | Finished exclusive => [marker_lock exclusive]
  end.

(** The query parameters a point belongs to. *)
Definition started_with (q : bool * bool) (pt : point) : Prop :=
  match pt with
  | Entry reset exclusive => q = (reset, exclusive)
  | Probing e | InCallback e _ | Warning e | Marking e | Unlocking e
  | Finished e | Failed e _ => q = (true, e)
  end.

Definition worker_inv (params : list (bool * bool)) (b : broker) (i : nat)
    (w : worker) : Prop :=
  match w with
  | Gone => True
  | Live p =>
      ∃ pt q, p = code_at pt ∧ params !! i = Some q ∧ started_with q pt ∧
              ∀ l, l ∈ holds pt → mkHeld i l ∈ b
  end.

(** At most one worker holds the outer lock. *)
Definition outer_unique (b : broker) : Prop :=
  ∀ h h', h ∈ b → h' ∈ b →
    name (lock_of h) = outer_name → name (lock_of h') = outer_name → h = h'.

Definition sys_inv (params : list (bool * bool)) (s : system) : Prop :=
  (∀ i w, workers s !! i = Some w → worker_inv params (held s) i w) ∧
  outer_unique (held s).

(** An exclusive lock is the only lock of its name. *)
Definition exclusive_alone (b : broker) : Prop :=
  ∀ h h', h ∈ b → h' ∈ b →
    name (lock_of h) = name (lock_of h') →
    mode (lock_of h) = Exclusive → h = h'.

(** What the lock set and the point of a worker become in one step. *)
Inductive lock_change (i : nat) (b : broker) (pt pt' : point) : broker → Prop :=
| change_none : holds pt' = holds pt → lock_change i b pt pt' b
| change_grant l :
    grantable b (name l) (mode l) = true →
    (name l = outer_name → l = outer_lock) →
    (∀ l', l' ∈ holds pt' → l' = l ∨ l' ∈ holds pt) →
    lock_change i b pt pt' (mkHeld i l :: b)
| change_release l :
    (∀ l', l' ∈ holds pt' → l' ∈ holds pt ∧ l' ≠ l) →
    lock_change i b pt pt' (release i l b).

(** ** Query parameters, builds and file systems (lines 5-58) *)

(** [URLSearchParams]: the name/value pairs of [location.search], in order;
    [has] and [get], the latter giving the first value or [null]. *)
Definition URLSearchParams := list (string * string).

Definition searchParams_has (sp : URLSearchParams) (k : string) : bool :=
  existsb (λ kv, String.eqb k kv.1) sp.

Fixpoint searchParams_get (sp : URLSearchParams) (k : string) : option string :=
  match sp with
  | [] => None
  | (k', v) :: sp' => if String.eqb k k' then Some v else searchParams_get sp' k
  end.

(** A [Map] with string keys, its entries in insertion order: [set] keeps
    the place of a key that is present, [new Map(entries)] sets the entries
    one after the other, [keys().next().value] is the first key. *)
Fixpoint Map_set {V : Type} (k : string) (v : V) (m : list (string * V))
    : list (string * V) :=
  match m with
  | [] => [(k, v)]
  | (k', v') :: m' =>
      if String.eqb k k' then (k, v) :: m' else (k', v') :: Map_set k v m'
  end.

Definition new_Map {V : Type} (entries : list (string * V)) : list (string * V) :=
  foldl (λ m kv, Map_set kv.1 kv.2 m) [] entries.

Fixpoint Map_get {V : Type} (m : list (string * V)) (k : string) : option V :=
  match m with
  | [] => None
  | (k', v) :: m' => if String.eqb k k' then Some v else Map_get m' k
  end.

Definition Map_first_key {V : Type} (m : list (string * V)) : option string :=
  match m with
  | [] => None
  | (k, _) :: _ => Some k
  end.

(** Lines 5-9. *)
Definition BUILDS : list (string * string) :=
  new_Map [("default", "../dist/wa-sqlite.mjs");
           ("asyncify", "../dist/wa-sqlite-async.mjs");
           ("jspi", "../dist/wa-sqlite-jspi.mjs")].

(** An argument of a VFS constructor: a string, the placeholder symbol
    [MODULE] (line 11), or the instantiated SQLite module. *)
Inductive vfs_arg := ArgString (s : string) | MODULE | ArgModule.

#[global] Instance vfs_arg_eq_dec : EqDecision vfs_arg.
Proof. solve_decision. Defined.

(** Lines 13-19; an absent [vfsClass] or [vfsArgs] is [None], and so is the
    [null] module of the default configuration. *)
Module Config.
Record t := make {
  name : string;
  vfsModule : option string;
  vfsClass : option string;
  vfsArgs : option (list vfs_arg)
}.
End Config.

Definition plain_config (n : string) (m : option string) : Config.t :=
  Config.make n m None None.

(** Lines 21-50. *)
Definition config_list : list Config.t :=
  [plain_config "default" None;
   plain_config "MemoryVFS" (Some "../src/examples/MemoryVFS.js");
   plain_config "MemoryAsyncVFS" (Some "../src/examples/MemoryAsyncVFS.js");
   plain_config "IDBBatchAtomicVFS" (Some "../src/examples/IDBBatchAtomicVFS.js");
   plain_config "OriginPrivateVFS" (Some "../src/examples/OriginPrivateVFS.js");
   plain_config "AccessHandlePoolVFS"
     (Some "../src/examples/AccessHandlePoolVFS.js");
   plain_config "FLOOR" (Some "../src/examples/FLOOR.js")].

Definition configs_by_name (configs : list Config.t) : list (string * Config.t) :=
  new_Map ((λ config, (Config.name config, config)) <$> configs).

Definition VFS_CONFIGS : list (string * Config.t) := configs_by_name config_list.

(** [a || b] for a string that may be [null] or [undefined]: the empty
    string is falsy too. *)
Definition js_or (a b : option string) : option string :=
  match a with
  | Some s => if String.eqb s "" then b else a
  | None => b
  end.

(** Lines 55-58. *)
Definition buildName (sp : URLSearchParams) : option string :=
  js_or (searchParams_get sp "build") (Map_first_key BUILDS).

Definition configName (sp : URLSearchParams) : option string :=
  js_or (searchParams_get sp "config") (Map_first_key VFS_CONFIGS).

Definition lookup_key {V : Type} (m : list (string * V)) (k : option string)
    : option V :=
  match k with
  | Some k => Map_get m k
  | None => None
  end.

Definition config (sp : URLSearchParams) : option Config.t :=
  lookup_key VFS_CONFIGS (configName sp).

Definition dbName (sp : URLSearchParams) : string :=
  default "hello" (searchParams_get sp "db").

(** The regular expression [/([^/]+)\.js$/] of line 78.  [class_at s] is
    its group when the match starts at the start of [s]: one or more
    characters other than a slash, followed by [.js] and the end of the
    string.  [match_class s] tries the start positions from the left. *)
Fixpoint class_at (s : string) : option string :=
  match s with
  | EmptyString => None
  | String c s' =>
      if Ascii.eqb c "/"%char then None
      else if String.eqb s' ".js" then Some (String c EmptyString)
      else String c <$> class_at s'
  end.

Fixpoint match_class (s : string) : option string :=
  match class_at s with
  | Some g => Some g
  | None =>
      match s with
      | EmptyString => None
      | String _ s' => match_class s'
      end
  end.

(** No slash in a string: what [[^/]] asks of each character. *)
Fixpoint slash_free (s : string) : bool :=
  match s with
  | EmptyString => true
  | String c s' => negb (Ascii.eqb c "/"%char) && slash_free s'
  end.

(** Line 80. *)
Definition fill_module (arg : vfs_arg) : vfs_arg :=
  if decide (arg = MODULE) then ArgModule else arg.

(** Line 79. *)
Definition vfsArgs (config : Config.t) : list vfs_arg :=
  fill_module <$> default [ArgString "demo"; MODULE] (Config.vfsArgs config).

(** ** Start of the worker (lines 54-124) *)

(** The calls of the start that can throw or reject. *)
Inductive call :=
| GetDirectory
| GetDirectoryHandle (n : string)
| GetFileHandle (n : string)
| Import (specifier : option string)
| ModuleFactory
| SQLiteFactory
| VfsCreate (className : string) (args : list vfs_arg)
| VfsRegister (makeDefault : bool)
| OpenV2 (db : string)
| AddMessageListener.

#[global] Instance call_eq_dec : EqDecision call.
Proof. solve_decision. Defined.

(** What the start can throw: the rejection of [maybeReset] or of a call,
    or one of the two [TypeError]s of its own code: a property read of the
    [undefined] configuration (line 60), an index into the [null] match
    (line 78). *)
Inductive failure :=
| Rejection (e : error)
| ConfigUndefined
| NoMatch.

(** The message posted to the page: [null] when the worker is ready,
    [{ error: cvtErrorToCloneable(e) }] otherwise. *)
Inductive start_message := Ready | Failure (f : failure).

Inductive event :=
| Called (c : call)
| ConsoleError (f : failure)
| Posted (m : start_message).

(** The outside world of the start: which calls fail, and how. *)
Definition world := call → option error.

Definition start (A : Type) : Type := world → list event * (failure + A).

#[global] Instance start_ret : MRet start := λ A a _, ([], inr a).
#[global] Instance start_bind : MBind start := λ A B f m w,
  match m w with
  | (t, inl e) => (t, inl e)
  | (t, inr a) => let r := f a w in (t ++ r.1, r.2)
  end.

Definition perform (c : call) : start unit := λ w,
  ([Called c], match w c with Some e => inl (Rejection e) | None => inr () end).

Definition throw {A : Type} (f : failure) : start A := λ _, ([], inl f).

Definition post (m : start_message) : start unit := λ _, ([Posted m], inr ()).

(** [if (config.vfsModule)]: neither [null] nor empty. *)
Definition truthy (s : option string) : option string := js_or s None.

(** Line 78. *)
Definition className (config : Config.t) (vfsModule : string) : start string :=
  match Config.vfsClass config with
  | Some c => mret c
  | None =>
      match match_class vfsModule with
      | Some c => mret c
      | None => throw NoMatch
      end
  end.

(** Lines 55-120, the callback of [then]. *)
Definition startup (sp : URLSearchParams) : start unit :=
  match config sp with
  | None => throw ConfigUndefined
  | Some config =>
      (if String.eqb (Config.name config) "AccessHandlePoolVFS" then
         perform GetDirectory;;
         perform (GetDirectoryHandle "demo");;
         perform (GetFileHandle (dbName sp));;
         perform (GetFileHandle (dbName sp +:+ "-journal"))
       else mret ());;
      perform (Import (lookup_key BUILDS (buildName sp)));;
      perform ModuleFactory;;
      perform SQLiteFactory;;
      match truthy (Config.vfsModule config) with
      | Some vfsModule =>
          perform (Import (Some vfsModule));;
          c ← className config vfsModule;
          perform (VfsCreate c (vfsArgs config));;
          perform (VfsRegister true)
      | None => mret ()
      end;;
      perform (OpenV2 (dbName sp));;
      perform AddMessageListener;;
      post Ready
  end.

(** Line 54, the call of [maybeReset]: its two parameters are read from
    the query string. *)
Definition reset_of (sp : URLSearchParams) : prog unit :=
  maybeReset (searchParams_has sp "reset") (searchParams_has sp "exclusive").

(** Lines 121-124, the callback of [catch]. *)
Definition report (f : failure) : list event :=
  [ConsoleError f; Posted (Failure f)].

(** Whether [maybeReset] was rejected by the clearing of IndexedDB.  The
    promise of a [deleteDatabase] request is rejected by [request.onerror]
    (line 155), so the reason is the [Event] of the request and no [Error];
    the refused marker (line 170) and the clearing of OPFS reject with an
    [Error]. *)
Definition rejected_with_event (t : list obs) : bool :=
  existsb (λ o, match o with
                | OStorage ClearIndexedDB (Rejected _) => true
                | _ => false
                end) t.

(** Lines 121-124 for a rejection of [maybeReset], whose observations were
    [t]: the reason is logged; an [Error] is then posted as
    [cvtErrorToCloneable] converts it; an [Event] is returned by
    [cvtErrorToCloneable] as it is, [postMessage] cannot clone it and
    throws, and nothing is posted. *)
Definition report_rejection (t : list obs) (e : error) : list event :=
  if rejected_with_event t then [ConsoleError (Rejection e)]
  else report (Rejection e).

(** Lines 54-124: [maybeReset().then(...).catch(...)], with the
    observations of [maybeReset] and the events of the start. *)
Definition worker_main (sp : URLSearchParams) (script : list answer) (w : world)
    : list obs * list event :=
  let r := run (reset_of sp) script in
  (r.1,
   match r.2 with
   | Returned _ =>
       match startup sp w with
       | (t, inr _) => t
       | (t, inl f) => t ++ report f
       end
   | Thrown e => report_rejection r.1 e
   | Pending => []
   end).

(** The calls the start makes for a configuration, in order: the files of
    the database for [AccessHandlePoolVFS], the build, the file system when
    the configuration names a module, the database and the listener. *)
Definition start_calls (sp : URLSearchParams) (config : Config.t) : list call :=
  (if String.eqb (Config.name config) "AccessHandlePoolVFS" then
     [GetDirectory; GetDirectoryHandle "demo"; GetFileHandle (dbName sp);
      GetFileHandle (dbName sp +:+ "-journal")]
   else []) ++
  [Import (lookup_key BUILDS (buildName sp)); ModuleFactory; SQLiteFactory] ++
  match truthy (Config.vfsModule config) with
  | Some vfsModule =>
      [Import (Some vfsModule);
       VfsCreate (Config.name config) [ArgString "demo"; ArgModule];
       VfsRegister true]
  | None => []
  end ++
  [OpenV2 (dbName sp); AddMessageListener].

(** Making calls one after the other up to the first that fails. *)
Fixpoint attempt (w : world) (calls : list call) : list event * option error :=
  match calls with
  | [] => ([], None)
  | c :: calls' =>
      match w c with
      | Some e => ([Called c], Some e)
      | None => (Called c :: (attempt w calls').1, (attempt w calls').2)
      end
  end.

(** An event is a call that went well. *)
Definition succeeded (w : world) (ev : event) : Prop :=
  ∃ c, ev = Called c ∧ w c = None.

(** ** Queries (lines 89-117) *)

Section queries.
Context {row number : Type}.

(** What the engine does with one prepared statement: the rows of the
    steps that returned [SQLITE_ROW], how the step after them ended
    (another return code, or a throw), and the column names. *)
Record statement := mkStatement {
  stmt_rows : list row;
  stmt_throws : option error;
  stmt_columns : list string
}.

(** What [sqlite3.statements(db, query)] yields: the statements, and the
    error, if any, that ends the iteration after them. *)
Record query_run := mkQueryRun {
  statements : list statement;
  iteration_throws : option error
}.

Record result := mkResult { columns : list string; rows : list row }.

Inductive reply :=
| PostResults (results : list result) (elapsed : number)
| LogError (e : error)
| PostError (e : error).

(** Lines 96-100: [rows.push(row)] for every step that gives a row. *)
Definition fetch_rows (s : statement) : error + list row :=
  let rows := foldl (λ rows r, rows ++ [r]) [] (stmt_rows s) in
  match stmt_throws s with
  | Some e => inl e
  | None => inr rows
  end.

(** Lines 96-105, the body of the loop over the statements. *)
Definition run_statement (results : list result) (s : statement)
    : error + list result :=
  match fetch_rows s with
  | inl e => inl e
  | inr rows =>
      inr (if decide (length (stmt_columns s) = 0) then results
           else results ++ [mkResult (stmt_columns s) rows])
  end.

(** Lines 94-106. *)
Fixpoint run_statements (results : list result) (ss : list statement)
    (iteration_throws : option error) : error + list result :=
  match ss with
  | [] =>
      match iteration_throws with
      | Some e => inl e
      | None => inr results
      end
  | s :: ss' =>
      match run_statement results s with
      | inl e => inl e
      | inr results' => run_statements results' ss' iteration_throws
      end
  end.

(** Lines 89-117, the listener; [elapsed] is
    [Math.trunc(end - start) / 1000] of the two clock readings. *)
Definition on_message (q : query_run) (elapsed : number) : list reply :=
  match run_statements [] (statements q) (iteration_throws q) with
  | inr results => [PostResults results elapsed]
  | inl e => [LogError e; PostError e]
  end.

End queries.

Arguments statement : clear implicits.
Arguments query_run : clear implicits.
Arguments result : clear implicits.
Arguments reply : clear implicits.

(** ** [cvtErrorToCloneable] (lines 179-197) *)

(** The values of the language, as far as the function looks at them:
    [undefined], strict equality, and whether [structuredClone] accepts a
    value. *)
Class JSValue (value : Type) := {
  undefined : value;
  value_eq_dec :: EqDecision value;
  cloneable : value → bool
}.

(** An [Error] object: its own properties, in the order of
    [Object.getOwnPropertyNames], and what reading any other key gives
    through its prototypes. *)
Record ErrorObject (value : Type) := mkErrorObject {
  own : list (string * value);
  inherited : string → value
}.
Arguments own {value} e.
Arguments inherited {value} e.

(** What is thrown: [e instanceof Error] or not. *)
Inductive thrown (value : Type) :=
| AnError (e : ErrorObject value)
| NotAnError (v : value).
Arguments AnError {value} e.
Arguments NotAnError {value} v.

(** [e[k]]. *)
Definition get_prop {value : Type} (e : ErrorObject value) (k : string) : value :=
  match Map_get (own e) k with
  | Some v => v
  | None => inherited e k
  end.

(** [new Set(keys)]: every key once, at its first place. *)
Definition Set_add (s : list string) (k : string) : list string :=
  if decide (k ∈ s) then s else s ++ [k].

Definition new_Set (keys : list string) : list string := foldl Set_add [] keys.

(** Lines 181-184. *)
Definition error_props {value : Type} `{!JSValue value} (e : ErrorObject value) : list string :=
  new_Set (filter (λ k, get_prop e k ≠ undefined) ["name"; "message"; "stack"]
           ++ (own e).*1).

(** Lines 179-197.  The object built by [Object.fromEntries] is given by its
    entries; a value that is not an [Error] is returned as it is. *)
Definition cvtErrorToCloneable {value : Type} `{!JSValue value}
    (e : thrown value)
    : value + list (string * value) :=
  match e with
  | AnError e =>
      inr (new_Map
             (List.filter (λ kv, cloneable kv.2)
                ((λ k, (k, get_prop e k)) <$> error_props e)))
  | NotAnError v => inl v
  end.

(** ** Properties of single runs *)

Ltac reset_run_case :=
  cbn;
  first
    [ by constructor
    | by (apply reset_run_stops; constructor)
    | by (apply (reset_run_marks _ [_; _]); constructor)
    | by (apply (reset_run_marks _ [_; _; _; _; _]); constructor) ].

Ltac next_answer script :=
  destruct script as [|[[]|[|?]] script]; try reset_run_case.

Lemma run_maybeReset_cases exclusive script :
  reset_run exclusive (run (maybeReset true exclusive) script).1
    (run (maybeReset true exclusive) script).2.
Proof.
  next_answer script. next_answer script.
  - (* the probe is granted *)
    next_answer script. next_answer script. next_answer script.
  - (* the probe finds the lock taken *)
    next_answer script.
Qed.

(** Case analysis over every run of [maybeReset] with a reset requested. *)
Ltac all_runs exclusive script :=
  let Hrun := fresh "Hrun" in
  let Hp := fresh "Hp" in
  let Hm := fresh "Hm" in
  pose proof (run_maybeReset_cases exclusive script) as Hrun;
  destruct (run (maybeReset true exclusive) script) as [t o];
  simpl in Hrun;
  inversion Hrun as [|? ? Hp|? ? ? Hp Hm]; subst;
  [ | inversion Hp; subst | inversion Hp; subst; inversion Hm; subst ].

(** Positions of an observation in a list that is known. *)
Ltac find_obs :=
  repeat match goal with
  | H : _ :: _ = ?pre ++ _ :: _ |- _ => destruct pre; simplify_eq/=
  | H : [] = ?pre ++ _ :: _ |- _ => destruct pre; simplify_eq/=
  end.

Lemma locks_held_at_end exclusive script :
  match (run (maybeReset true exclusive) script).2 with
  | Returned _ =>
      locks_held (run (maybeReset true exclusive) script).1
      = [marker_lock exclusive]
  | Thrown _ =>
      locks_held (run (maybeReset true exclusive) script).1 = [outer_lock]
  | Pending => True
  end.
Proof. all_runs exclusive script; by destruct exclusive. Qed.

(** C1 (the code departs from the claim): when the destructive reset fails,
    and when the final marker request is refused, [maybeReset] rejects with
    the outer lock still held: [outerLockReleaser] is called on line 175
    only, which neither rejection reaches.  A second worker asking for a
    reset then cannot get past its request for the outer lock. *)
Theorem outer_lock_kept_on_failure :
  (let r := run (maybeReset true false)
              [ALock true; ALock true;
               AStorage (Rejected (Error "removeEntry failed"))] in
   r.2 = Thrown (Error "removeEntry failed") ∧ locks_held r.1 = [outer_lock]) ∧
  (let r := run (maybeReset true true) [ALock true; ALock false; ALock false] in
   r.2 = Thrown marker_error ∧ locks_held r.1 = [outer_lock]) ∧
  (∃ s, exec [Step 0 Fulfilled; Step 0 Fulfilled; Step 0 Fulfilled;
              Step 0 (Rejected (Error "removeEntry failed"));
              Step 0 Fulfilled]
          (init [(true, false); (true, false)]) = Some s ∧
        workers s !! 0 = Some (Live (Throw (Error "removeEntry failed"))) ∧
        held s = [mkHeld 0 outer_lock] ∧
        ∀ r, sys_step (Step 1 r) s = None).
Proof.
  split; [done|]. split; [done|].
  eexists. split; [reflexivity|]. done.
Qed.

(** C2, counterexample: with the inner lock taken, the marker request of
    the final phase is made with [ifAvailable] and, being refused, makes
    [maybeReset] reject instead of waiting for the lock. *)
Lemma marker_request_refused_example :
  let r := run (maybeReset true true) [ALock true; ALock false; ALock false] in
  marker_of r.1 = Some (ORequest inner_name Exclusive true false) ∧
  r.2 = Thrown marker_error.
Proof. done. Qed.

(** C2, amended: in every run that reaches the final phase the marker lock
    is requested with [ifAvailable], so the request never waits: granted,
    the run returns; refused, the run rejects with
    "failed to acquire inner lock". *)
Theorem marker_request_never_waits exclusive script n m ia granted :
  marker_of (run (maybeReset true exclusive) script).1
  = Some (ORequest n m ia granted) →
  ia = true ∧
  (run (maybeReset true exclusive) script).2
  = if granted then Returned () else Thrown marker_error.
Proof.
  unfold marker_of.
  all_runs exclusive script; cbn; unfold o_marker; intros ?; by simplify_eq.
Qed.

Lemma marker_request_never_waits_witness :
  marker_of (run (maybeReset true false)
               [ALock true; ALock false; ALock true]).1
  = Some (ORequest inner_name Shared true true) ∧
  (run (maybeReset true false)
     [ALock true; ALock false; ALock true]).2 = Returned ().
Proof.
  split; [reflexivity|].
  apply (marker_request_never_waits false
           [ALock true; ALock false; ALock true] inner_name Shared true true).
  reflexivity.
Defined.

(** C3, counterexample: in a run that resets and succeeds, the marker is
    requested and granted (seventh observation) while the outer lock is
    still held, and the outer lock is released after it (eighth). *)
Lemma marker_precedes_outer_release_example :
  let r := run (maybeReset true false)
             [ALock true; ALock true; AStorage Fulfilled; AStorage Fulfilled;
              ALock true] in
  r.1 !! 6 = Some (ORequest inner_name Shared true true) ∧
  locks_held (take 7 r.1) = [marker_lock false; outer_lock] ∧
  r.1 !! 7 = Some (ORelease outer_lock) ∧
  (∀ k, k < 7 → r.1 !! k ≠ Some (ORelease outer_lock)).
Proof.
  split; [done|]. split; [done|]. split; [done|].
  intros k Hk. do 7 (destruct k as [|k]; [done|]). lia.
Qed.

(** C3, amended: in every run that reaches the final phase, the marker
    request (the second request for the inner lock) is made while the outer
    lock is held: no release of the outer lock comes before it, so the outer
    lock is released, if at all, after the marker request. *)
Theorem marker_requested_under_outer_lock exclusive script pre m ia granted post :
  (run (maybeReset true exclusive) script).1
  = pre ++ ORequest inner_name m ia granted :: post →
  length (inner_requests pre) = 1 →
  (ORelease outer_lock ∉ pre) ∧ outer_lock ∈ locks_held pre.
Proof.
  all_runs exclusive script; cbn; unfold o_probe, o_marker; intros Hsplit;
    find_obs; cbn; try done; intros _.
  all: split; [|by apply list_elem_of_In; vm_compute; tauto].
  all: rewrite !not_elem_of_cons; repeat split; try done; apply not_elem_of_nil.
Qed.

Lemma marker_requested_under_outer_lock_witness :
  (ORelease outer_lock
   ∉ [o_outer; o_probe true; OConsole log clearing_msg;
      OStorage ClearOPFS Fulfilled; OStorage ClearIndexedDB Fulfilled;
      ORelease probe_lock]) ∧
  outer_lock
  ∈ locks_held [o_outer; o_probe true; OConsole log clearing_msg;
                OStorage ClearOPFS Fulfilled; OStorage ClearIndexedDB Fulfilled;
                ORelease probe_lock].
Proof.
  apply (marker_requested_under_outer_lock true
           [ALock true; ALock true; AStorage Fulfilled; AStorage Fulfilled;
            ALock true]
           _ Exclusive true true [ORelease outer_lock]).
  - reflexivity.
  - reflexivity.
Defined.

(** C5, counterexample: the probe is refused, the reset is skipped, and the
    caller still receives a failure: the marker request that follows is
    refused as well and [maybeReset] rejects.  In the system this is what
    happens to a worker that starts after another one has returned with an
    exclusive marker. *)
Lemma skipped_reset_then_failure_example :
  (let r := run (maybeReset true false) [ALock true; ALock false; ALock false] in
   probe_of r.1 = Some (o_probe false) ∧
   delegate_invoked r.1 = false ∧
   r.2 = Thrown marker_error) ∧
  (∃ s,
     exec [Step 0 Fulfilled; Step 0 Fulfilled; Step 0 Fulfilled;
           Step 0 Fulfilled; Step 0 Fulfilled; Step 0 Fulfilled;
           Step 0 Fulfilled; Step 0 Fulfilled;
           Step 1 Fulfilled; Step 1 Fulfilled; Step 1 Fulfilled;
           Step 1 Fulfilled]
       (init [(true, true); (true, false)]) = Some s ∧
     workers s !! 0 = Some (Live (Ret ())) ∧
     workers s !! 1 = Some (Live (Throw marker_error))).
Proof. split; [done|]. eexists. split; [reflexivity|]. done. Qed.

(** C5, amended: when the probe of the inner lock is refused, no storage is
    cleared, the warning is written, and the next step is the marker
    request of the final phase; the skip itself is no failure: the run
    returns when the marker request is granted, and rejects with
    "failed to acquire inner lock" when that request is refused. *)
Theorem refused_probe_skips_reset exclusive script :
  probe_of (run (maybeReset true exclusive) script).1 = Some (o_probe false) →
  delegate_invoked (run (maybeReset true exclusive) script).1 = false ∧
  take 3 (run (maybeReset true exclusive) script).1
  = [o_outer; o_probe false; OConsole warn skipped_msg] ∧
  match (run (maybeReset true exclusive) script).2 with
  | Returned _ =>
      (run (maybeReset true exclusive) script).1 !! 3
      = Some (o_marker exclusive true)
  | Thrown e =>
      (run (maybeReset true exclusive) script).1 !! 3
      = Some (o_marker exclusive false) ∧
      e = marker_error
  | Pending =>
      (run (maybeReset true exclusive) script).1 !! 3 = None ∧
      (script = [ALock true; ALock false] ∨
       ∃ r script', script = ALock true :: ALock false :: AStorage r :: script')
  end.
Proof.
  unfold probe_of.
  destruct script as [|[[]|?] [|[[]|?] [|[[]|?] script]]]; cbn; try done.
  all: intros _; split; [done|]; split; [done|]; eauto.
Qed.

Lemma refused_probe_skips_reset_witness :
  probe_of (run (maybeReset true false)
              [ALock true; ALock false; ALock true]).1
  = Some (o_probe false) ∧
  (run (maybeReset true false) [ALock true; ALock false; ALock true]).1 !! 3
  = Some (o_marker false true).
Proof.
  split; [reflexivity|].
  exact (proj2 (proj2 (refused_probe_skips_reset false
                         [ALock true; ALock false; ALock true] eq_refl))).
Defined.

(** A skipped reset followed by a granted marker: worker 0 has returned and
    keeps a shared marker; worker 1, also asking for a shared marker, finds
    the probe refused, skips the reset, gets its marker and returns. *)
Example skip_then_mark_example :
  exec [Step 0 Fulfilled; Step 0 Fulfilled; Step 0 Fulfilled; Step 0 Fulfilled;
        Step 0 Fulfilled; Step 0 Fulfilled; Step 0 Fulfilled; Step 0 Fulfilled;
        Step 1 Fulfilled; Step 1 Fulfilled; Step 1 Fulfilled; Step 1 Fulfilled;
        Step 1 Fulfilled]
    (init [(true, false); (true, false)])
  = Some (mkSystem [Live (Ret ()); Live (Ret ())]
            [mkHeld 1 (marker_lock false); mkHeld 0 (marker_lock false)]).
Proof. reflexivity. Qed.

(** C6: without the [reset] parameter, [maybeReset] returns at once: nothing
    is asked of the broker, no storage is cleared, and the worker holds no
    lock; in the system the worker makes no step at all. *)
Theorem no_reset_no_locking exclusive script :
  run (maybeReset false exclusive) script = ([], Returned ()) ∧
  locks_held (run (maybeReset false exclusive) script).1 = [] ∧
  delegate_invoked (run (maybeReset false exclusive) script).1 = false ∧
  ∀ i r b, worker_step i r b (maybeReset false exclusive) = None.
Proof. done. Qed.

(** C8: once the reset has ended, by the IndexedDB clearing settling or by
    a clearing being rejected, the very next step releases the lock of the
    probe; after a rejection nothing else follows and the run rejects with
    that error. *)
Theorem probe_lock_released_after_reset exclusive script pre op r post :
  (run (maybeReset true exclusive) script).1 = pre ++ OStorage op r :: post →
  op = ClearIndexedDB ∨ r ≠ Fulfilled →
  (∃ post', post = ORelease probe_lock :: post') ∧
  locks_held (pre ++ OStorage op r :: take 1 post) = [outer_lock] ∧
  (∀ e, r = Rejected e →
        post = [ORelease probe_lock] ∧
        (run (maybeReset true exclusive) script).2 = Thrown e).
Proof.
  all_runs exclusive script; cbn; intros ? Hend; find_obs;
    try (by destruct Hend);
    (split; [by eexists|split; [done|intros; by simplify_eq]]).
Qed.

Lemma probe_lock_released_after_reset_witness :
  ∃ post', [ORelease probe_lock] = ORelease probe_lock :: post'.
Proof.
  apply (probe_lock_released_after_reset false
           [ALock true; ALock true; AStorage Fulfilled;
            AStorage (Rejected (Error "deleteDatabase failed"))]
           [o_outer; o_probe true; OConsole log clearing_msg;
            OStorage ClearOPFS Fulfilled]
           ClearIndexedDB (Rejected (Error "deleteDatabase failed"))
           [ORelease probe_lock]).
  - reflexivity.
  - by left.
Defined.

(** C9: the marker request of the final phase is for the inner lock, in
    mode exclusive when the [exclusive] parameter is present and shared
    otherwise. *)
Theorem marker_request_mode exclusive script n m ia granted :
  marker_of (run (maybeReset true exclusive) script).1
  = Some (ORequest n m ia granted) →
  n = inner_name ∧ m = if exclusive then Exclusive else Shared.
Proof.
  unfold marker_of.
  all_runs exclusive script; cbn; unfold o_marker; intros ?; by simplify_eq.
Qed.

Lemma marker_request_mode_witness :
  marker_of (run (maybeReset true true)
               [ALock true; ALock true; AStorage Fulfilled; AStorage Fulfilled;
                ALock false]).1
  = Some (ORequest inner_name Exclusive true false) ∧
  inner_name = inner_name ∧ Exclusive = Exclusive.
Proof.
  split; [reflexivity|].
  apply (marker_request_mode true
           [ALock true; ALock true; AStorage Fulfilled; AStorage Fulfilled;
            ALock false]
           inner_name Exclusive true false).
  reflexivity.
Defined.

(** C10: two runs against the same outside world that differ only in the
    [exclusive] parameter do the same up to the marker request: the same
    exclusive waiting request for the outer lock, the same exclusive
    [ifAvailable] probe, the same reset or skip; after that they differ in
    the mode of the marker request only, and end the same way. *)
Theorem exclusive_only_sets_marker_mode e1 e2 script :
  let r1 := run (maybeReset true e1) script in
  let r2 := run (maybeReset true e2) script in
  upto_marker false r1.1 = upto_marker false r2.1 ∧
  Forall2 same_but_mode r1.1 r2.1 ∧
  r1.2 = r2.2 ∧
  (∀ o, r1.1 !! 0 = Some o → o = ORequest outer_name Exclusive false true) ∧
  (∀ o, probe_of r1.1 = Some o →
        ∃ granted, o = ORequest inner_name Exclusive true granted) ∧
  probe_of r1.1 = probe_of r2.1 ∧
  delegate_invoked r1.1 = delegate_invoked r2.1.
Proof.
  unfold probe_of.
  destruct script as
    [|[[]|[|?]] [|[[]|[|?]] [|[[]|[|?]] [|[[]|[|?]] [|[[]|[|?]] script]]]]];
    cbn.
  all: split; [done|]; split; [repeat constructor|].
  all: split; [done|]; split; [intros; by simplify_eq|].
  all: split; [intros; simplify_eq; by eexists|done].
Qed.

(** ** Properties of the system of workers *)

Lemma exec_reachable params schedule s s' :
  reachable params s → exec schedule s = Some s' → reachable params s'.
Proof.
  revert s. induction schedule as [|a schedule IH]; intros s Hs; cbn.
  - by intros [= <-].
  - destruct (sys_step a s) as [s1|] eqn:Hstep; [|done].
    intros. apply (IH s1); [|done]. by eapply reachable_step.
Qed.

(** A step of a worker in the system is a step of [run] under the answer
    the broker or the storage gave. *)
Lemma worker_step_run i r b p o b' p' script :
  worker_step i r b p = Some (o, b', p') →
  ∃ answers : list answer, (length answers ≤ 1)%nat ∧
             run p (answers ++ script) = observe o (run p' script).
Proof.
  destruct p as [a|e|n m ia k|l k|lv msg k|op k]; cbn; try done.
  - destruct (grantable b n m).
    + intros [= <- <- <-]. exists [ALock true]. split; [cbn; lia|done].
    + destruct ia; [|done]. intros [= <- <- <-].
      exists [ALock false]. split; [cbn; lia|done].
  - intros [= <- <- <-]. exists []. split; [cbn; lia|done].
  - intros [= <- <- <-]. exists []. split; [cbn; lia|done].
  - intros [= <- <- <-]. exists [AStorage r]. split; [cbn; lia|done].
Qed.

Lemma elem_of_release h i l b : h ∈ release i l b → h ∈ b.
Proof.
  induction b as [|h' b IH]; cbn; [done|].
  case_decide; rewrite !elem_of_cons; tauto.
Qed.

Lemma elem_of_release_other h i l b :
  h ∈ b → h ≠ mkHeld i l → h ∈ release i l b.
Proof.
  induction b as [|h' b IH]; cbn; [done|].
  case_decide; rewrite !elem_of_cons; [intros [->|?]; [done|tauto]|tauto].
Qed.

Lemma grantable_no_conflict b n m h :
  grantable b n m = true → h ∈ b → conflicts n m h = false.
Proof.
  unfold grantable. induction b as [|h' b IH]; cbn.
  - by intros _ ?%elem_of_nil.
  - intros [Hh' Hb]%andb_prop [->|?]%elem_of_cons; [|by apply IH].
    by destruct (conflicts n m h').
Qed.

Lemma conflict_not_grantable b n m h :
  h ∈ b → conflicts n m h = true → grantable b n m = false.
Proof.
  intros Hin Hc. destruct (grantable b n m) eqn:Hg; [|done].
  by rewrite (grantable_no_conflict _ _ _ _ Hg Hin) in Hc.
Qed.

Lemma worker_step_point i r b pt o b' p' :
  worker_step i r b (code_at pt) = Some (o, b', p') →
  ∃ pt', p' = code_at pt' ∧
         (∀ q, started_with q pt → started_with q pt') ∧
         lock_change i b pt pt' b'.
Proof.
  destruct pt as [[] e|e|e [| | |[|err]]|e|e|e|e|e err]; cbn; try done.
  - (* waiting for the outer lock *)
    destruct (grantable b outer_name Exclusive) eqn:Hg; [|done].
    intros [= <- <- <-]. exists (Probing e). split; [done|]. split; [done|].
    apply (change_grant _ _ _ _ outer_lock); [done|done|].
    cbn. intros l'. rewrite !elem_of_cons. tauto.
  - (* the probe *)
    destruct (grantable b inner_name Exclusive) eqn:Hg; intros [= <- <- <-].
    + exists (InCallback e SLog). split; [done|]. split; [done|].
      apply (change_grant _ _ _ _ probe_lock); [done|done|].
      cbn. intros l'. rewrite !elem_of_cons. tauto.
    + exists (Warning e). split; [done|]. split; [done|]. by constructor.
  - intros [= <- <- <-]. exists (InCallback e SOpfs).
    split; [done|]. split; [done|]. by constructor.
  - intros [= <- <- <-]. destruct r as [|err].
    + exists (InCallback e SIdb). split; [done|]. split; [done|]. by constructor.
    + exists (InCallback e (SEnd (Rejected err))).
      split; [done|]. split; [done|]. by constructor.
  - intros [= <- <- <-]. exists (InCallback e (SEnd r)).
    split; [by destruct r|]. split; [done|]. by constructor.
  - (* the reset is over: the lock of the probe is released *)
    intros [= <- <- <-]. exists (Marking e). split; [done|]. split; [done|].
    apply change_release. cbn. intros l'. rewrite !elem_of_cons, elem_of_nil.
    intros [->|[]]. split; [by right; left|done].
  - (* the reset failed: the lock of the probe is released *)
    intros [= <- <- <-]. exists (Failed e err). split; [done|]. split; [done|].
    apply change_release. cbn. intros l'. rewrite !elem_of_cons, elem_of_nil.
    intros [->|[]]. split; [by right; left|done].
  - intros [= <- <- <-]. exists (Marking e).
    split; [done|]. split; [done|]. by constructor.
  - (* the marker request *)
    destruct (grantable b inner_name (marker_mode e)) eqn:Hg;
      intros [= <- <- <-].
    + exists (Unlocking e). split; [done|]. split; [done|].
      apply (change_grant _ _ _ _ (marker_lock e)); [done|done|].
      cbn. intros l'. rewrite !elem_of_cons. tauto.
    + exists (Failed e marker_error). split; [done|]. split; [done|].
      by constructor.
  - (* the outer lock is released *)
    intros [= <- <- <-]. exists (Finished e). split; [done|]. split; [done|].
    apply change_release. cbn. intros l'. rewrite !elem_of_cons, elem_of_nil.
    intros [->|[]]. split; [by left|by destruct e].
Qed.

(** The invariant of the system, for workers started with any parameters. *)
Section invariant.
Variable params : list (bool * bool).

Lemma sys_inv_init : sys_inv params (init params).
Proof.
  split.
  - intros i w. cbn. rewrite list_lookup_fmap.
    destruct (params !! i) as [q|] eqn:Hq; [|done]. intros [= <-].
    exists (Entry q.1 q.2), q. split; [done|]. split; [done|].
    split; [by destruct q|]. by intros l ?%elem_of_nil.
  - by intros h h' ?%elem_of_nil.
Qed.

Lemma worker_inv_other b b' j w :
  (∀ l, mkHeld j l ∈ b → mkHeld j l ∈ b') →
  worker_inv params b j w → worker_inv params b' j w.
Proof.
  intros Hmono. destruct w as [p|]; [|done].
  intros (pt & q & ? & ? & ? & Hheld). exists pt, q. eauto 10.
Qed.

Lemma outer_unique_subset b b' :
  (∀ h, h ∈ b' → h ∈ b) → outer_unique b → outer_unique b'.
Proof. intros Hsub Hu h h' ????. apply Hu; auto. Qed.

Lemma sys_inv_step a s s' :
  sys_inv params s → sys_step a s = Some s' → sys_inv params s'.
Proof.
  intros [Hw Hu]. destruct a as [i r|i]; cbn.
  - destruct (workers s !! i) as [[p|]|] eqn:Hi; try done.
    destruct (worker_step i r (held s) p) as [[[o b'] p']|] eqn:Hstep; [|done].
    intros [= <-]. cbn.
    destruct (Hw i _ Hi) as (pt & q & -> & Hq & Hstart & Hheld).
    destruct (worker_step_point _ _ _ _ _ _ _ Hstep) as (pt' & -> & Hq' & Hch).
    split.
    + intros j w [(-> & <- & _)|[Hne Hj]]%list_lookup_insert_Some.
      * exists pt', q. split; [done|]. split; [done|]. split; [auto|].
        destruct Hch as [Heq|l Hg Ho Hl|l Hl].
        -- rewrite Heq. done.
        -- intros l' [->|?]%Hl; apply elem_of_cons; auto.
        -- intros l' [? ?]%Hl. apply elem_of_release_other; [auto|congruence].
      * apply (worker_inv_other (held s)); [|by apply Hw].
        destruct Hch as [Heq|l Hg Ho Hl|l Hl]; [done| |].
        -- intros l' ?. apply elem_of_cons. auto.
        -- intros l' ?. apply elem_of_release_other; [done|congruence].
    + destruct Hch as [Heq|l Hg Ho Hl|l Hl]; [done| |].
      * assert (∀ h, h ∈ held s → name (lock_of h) = outer_name →
                name l = outer_name → False) as Hfree.
        { intros h Hin Hn Hl'. rewrite (Ho Hl') in Hg. cbn in Hg.
          pose proof (grantable_no_conflict _ _ _ _ Hg Hin) as Hc.
          unfold conflicts in Hc. rewrite Hn in Hc. done. }
        intros h h' [->|Hin]%elem_of_cons [->|Hin']%elem_of_cons Hn Hn';
          [done| | |by apply Hu].
        -- destruct (Hfree h' Hin' Hn' Hn).
        -- destruct (Hfree h Hin Hn Hn').
      * eapply outer_unique_subset; [|done]. intros h. apply elem_of_release.
  - destruct (workers s !! i) as [[p|]|] eqn:Hi; try done.
    intros [= <-]. cbn. split.
    + intros j w [(-> & <- & _)|[Hne Hj]]%list_lookup_insert_Some; [done|].
      apply (worker_inv_other (held s)); [|by apply Hw].
      intros l ?. apply list_elem_of_filter. split; [cbn; congruence|done].
    + eapply outer_unique_subset; [|done].
      intros h [_ ?]%list_elem_of_filter. done.
Qed.

Lemma reachable_inv s : reachable params s → sys_inv params s.
Proof.
  induction 1 as [|a s s' _ IH Hstep]; [apply sys_inv_init|].
  by eapply sys_inv_step.
Qed.

End invariant.

Lemma delegate_active_holds_outer pt :
  delegate_active (code_at pt) = true → outer_lock ∈ holds pt.
Proof.
  destruct pt as [[] e|e|e [| | |[|err]]|e|e|e|e|e err]; cbn; try done.
  all: intros _; rewrite !elem_of_cons; auto.
Qed.

Lemma returned_point q pt :
  started_with q pt → q.1 = true → code_at pt = Ret () → pt = Finished q.2.
Proof.
  destruct pt as [[] e|e|e [| | |[|err]]|e|e|e|e|e err]; cbn; try done.
  all: by intros ->.
Qed.

(** C4: in every reachable state of any number of workers, whatever their
    parameters and however their steps interleave, when one worker is
    inside the destructive reset no other worker is. *)
Theorem reset_mutual_exclusion params s i j p q :
  reachable params s →
  workers s !! i = Some (Live p) → delegate_active p = true →
  j ≠ i → workers s !! j = Some (Live q) →
  delegate_active q = false.
Proof.
  intros [Hw Hu]%reachable_inv Hi Hp Hne Hj.
  destruct (delegate_active q) eqn:Hq; [|done]. exfalso.
  destruct (Hw i _ Hi) as (pt & ? & -> & _ & _ & Hheld).
  destruct (Hw j _ Hj) as (pt' & ? & -> & _ & _ & Hheld').
  apply delegate_active_holds_outer, Hheld in Hp.
  apply delegate_active_holds_outer, Hheld' in Hq.
  specialize (Hu _ _ Hp Hq eq_refl eq_refl). congruence.
Qed.

Lemma reset_mutual_exclusion_witness :
  delegate_active (maybeReset true true) = false.
Proof.
  eapply (reset_mutual_exclusion [(true, false); (true, true)] _ 0 1).
  - eapply (exec_reachable _
              [Step 0 Fulfilled; Step 0 Fulfilled; Step 0 Fulfilled]);
      [apply reachable_init|reflexivity].
  - reflexivity.
  - reflexivity.
  - lia.
  - reflexivity.
Defined.

(** C7: in every reachable state, a worker that asked for a reset and
    whose [maybeReset] has returned holds its marker on the inner lock for
    as long as it lives; an exclusive [ifAvailable] probe of the inner lock
    by any worker is then refused. *)
Theorem marker_held_for_life params s i e :
  reachable params s →
  params !! i = Some (true, e) →
  workers s !! i = Some (Live (Ret ())) →
  mkHeld i (marker_lock e) ∈ held s ∧
  grantable (held s) inner_name Exclusive = false ∧
  ∀ j r k s',
    workers s !! j = Some (Live (LocksRequest inner_name Exclusive true k)) →
    sys_step (Step j r) s = Some s' →
    workers s' !! j = Some (Live (k None)) ∧ held s' = held s.
Proof.
  intros [Hw _]%reachable_inv Hq Hi.
  destruct (Hw i _ Hi) as (pt & q & Hpt & Hq' & Hstart & Hheld).
  rewrite Hq in Hq'. injection Hq' as <-.
  rewrite (returned_point _ _ Hstart eq_refl (eq_sym Hpt)) in Hheld.
  assert (mkHeld i (marker_lock e) ∈ held s) as Hmarker.
  { apply Hheld. cbn. by left. }
  assert (grantable (held s) inner_name Exclusive = false) as Hg.
  { by eapply conflict_not_grantable. }
  split; [done|]. split; [done|].
  intros j r k s' Hj. cbn. rewrite Hj. cbn. rewrite Hg. intros [= <-]. cbn.
  split; [|done]. apply list_lookup_insert_eq. by eapply lookup_lt_Some.
Qed.

Lemma marker_held_for_life_witness :
  grantable [mkHeld 0 (marker_lock false)] inner_name Exclusive = false.
Proof.
  eapply (marker_held_for_life [(true, false); (true, true)]
            (mkSystem _ [mkHeld 0 (marker_lock false)]) 0 false).
  - eapply (exec_reachable _
              [Step 0 Fulfilled; Step 0 Fulfilled; Step 0 Fulfilled;
               Step 0 Fulfilled; Step 0 Fulfilled; Step 0 Fulfilled;
               Step 0 Fulfilled; Step 0 Fulfilled]);
      [apply reachable_init|reflexivity].
  - reflexivity.
  - reflexivity.
Defined.


(** ** Further properties of the system of workers *)

Lemma exclusive_alone_grant b i n m :
  grantable b n m = true → exclusive_alone b →
  exclusive_alone (mkHeld i (mkLock n m) :: b).
Proof.
  intros Hg Hb h h' [->|Hin]%elem_of_cons [->|Hin']%elem_of_cons Hn Hm;
    cbn in *; [done| | |by apply Hb].
  - pose proof (grantable_no_conflict _ _ _ _ Hg Hin') as Hc.
    unfold conflicts in Hc. rewrite Hn, Hm, String.eqb_refl in Hc. done.
  - pose proof (grantable_no_conflict _ _ _ _ Hg Hin) as Hc.
    unfold conflicts in Hc. rewrite <-Hn, Hm, String.eqb_refl in Hc.
    by destruct m.
Qed.

Lemma exclusive_alone_subset b b' :
  (∀ h, h ∈ b' → h ∈ b) → exclusive_alone b → exclusive_alone b'.
Proof. intros Hsub Hb h h' ????. apply Hb; auto. Qed.

Lemma exclusive_alone_step a s s' :
  exclusive_alone (held s) → sys_step a s = Some s' → exclusive_alone (held s').
Proof.
  intros Hb. destruct a as [i r|i]; cbn.
  - destruct (workers s !! i) as [[p|]|]; try done.
    destruct p as [?|?|n m ia k|l k|lv msg k|op k]; cbn; try done.
    + destruct (grantable (held s) n m) eqn:Hg.
      * intros [= <-]. by apply exclusive_alone_grant.
      * destruct ia; [|done]. by intros [= <-].
    + intros [= <-]. cbn. eapply exclusive_alone_subset; [|done].
      intros h. apply elem_of_release.
    + by intros [= <-].
    + by intros [= <-].
  - destruct (workers s !! i) as [[p|]|]; try done.
    intros [= <-]. cbn. eapply exclusive_alone_subset; [|done].
    intros h [_ ?]%list_elem_of_filter. done.
Qed.

Lemma reachable_exclusive_alone params s :
  reachable params s → exclusive_alone (held s).
Proof.
  induction 1 as [|a s s' _ IH Hstep].
  - by intros h h' ?%elem_of_nil.
  - by eapply exclusive_alone_step.
Qed.

Lemma delegate_active_holds_probe pt :
  delegate_active (code_at pt) = true → probe_lock ∈ holds pt.
Proof.
  destruct pt as [[] e|e|e [| | |[|err]]|e|e|e|e|e err]; cbn; try done.
  all: intros _; rewrite !elem_of_cons; auto.
Qed.

Lemma thrown_point q pt e :
  started_with q pt → code_at pt = Throw e → outer_lock ∈ holds pt.
Proof.
  destruct pt as [[] ex|ex|ex [| | |[|err]]|ex|ex|ex|ex|ex err]; cbn; try done.
  intros _ _. rewrite elem_of_cons. auto.
Qed.

(** X1: while a worker clears the storage, every lock held on the inner name
    is its own probe lock: no other worker holds the inner lock, in any
    mode. *)
Theorem reset_excludes_inner_holders params s i p h :
  reachable params s →
  workers s !! i = Some (Live p) → delegate_active p = true →
  h ∈ held s → name (lock_of h) = inner_name →
  h = mkHeld i probe_lock.
Proof.
  intros Hr Hi Hp Hh Hn.
  pose proof (reachable_exclusive_alone _ _ Hr) as Hb.
  destruct (reachable_inv _ _ Hr) as [Hw _].
  destruct (Hw i _ Hi) as (pt & ? & -> & _ & _ & Hheld).
  apply delegate_active_holds_probe, Hheld in Hp.
  symmetry. by apply Hb.
Qed.

Lemma reset_excludes_inner_holders_witness :
  mkHeld 0 probe_lock = mkHeld 0 probe_lock.
Proof.
  eapply (reset_excludes_inner_holders [(true, false); (true, true)]
            (mkSystem _ [mkHeld 0 probe_lock; mkHeld 0 outer_lock]) 0).
  - eapply (exec_reachable _
              [Step 0 Fulfilled; Step 0 Fulfilled; Step 0 Fulfilled]);
      [apply reachable_init|reflexivity].
  - reflexivity.
  - reflexivity.
  - cbn. apply elem_of_cons. by left.
  - reflexivity.
Defined.

(** X2: a worker whose [maybeReset] has rejected keeps the outer lock for
    as long as it lives: no worker that asks for a reset gets past its
    request for the outer lock. *)
Theorem rejected_worker_blocks_resets params s i e j r exclusive :
  reachable params s →
  workers s !! i = Some (Live (Throw e)) →
  workers s !! j = Some (Live (maybeReset true exclusive)) →
  mkHeld i outer_lock ∈ held s ∧ sys_step (Step j r) s = None.
Proof.
  intros [Hw _]%reachable_inv Hi Hj.
  destruct (Hw i _ Hi) as (pt & q & Hpt & _ & Hstart & Hheld).
  assert (mkHeld i outer_lock ∈ held s) as Hin.
  { apply Hheld. by eapply thrown_point. }
  split; [done|]. cbn. rewrite Hj. cbn.
  by rewrite (conflict_not_grantable _ _ _ _ Hin).
Qed.

Lemma rejected_worker_blocks_resets_witness :
  mkHeld 0 outer_lock ∈ [mkHeld 0 outer_lock] ∧
  sys_step (Step 1 Fulfilled)
    (mkSystem [Live (Throw (Error "removeEntry failed"));
               Live (maybeReset true true)]
       [mkHeld 0 outer_lock]) = None.
Proof.
  eapply (rejected_worker_blocks_resets [(true, false); (true, true)]
            (mkSystem _ [mkHeld 0 outer_lock]) 0
            (Error "removeEntry failed") 1 Fulfilled true).
  - eapply (exec_reachable _
              [Step 0 Fulfilled; Step 0 Fulfilled; Step 0 Fulfilled;
               Step 0 (Rejected (Error "removeEntry failed"));
               Step 0 Fulfilled]);
      [apply reachable_init|reflexivity].
  - reflexivity.
  - reflexivity.
Defined.

(** X3: the request for the outer lock is the only request for a lock at
    which a worker waits: a live worker standing at a request that the
    broker does not answer is at the start of a requested reset, with the
    outer lock taken; the probe and the marker request are answered at
    once. *)
Theorem only_the_outer_request_waits params s i n m ia k r :
  reachable params s →
  workers s !! i = Some (Live (LocksRequest n m ia k)) →
  sys_step (Step i r) s = None →
  n = outer_name ∧ m = Exclusive ∧ ia = false ∧
  grantable (held s) outer_name Exclusive = false ∧
  ∃ exclusive, LocksRequest n m ia k = maybeReset true exclusive.
Proof.
  intros [Hw _]%reachable_inv Hi. cbn. rewrite Hi.
  destruct (Hw i _ Hi) as (pt & ? & Hpt & _ & _ & _). rewrite Hpt.
  destruct pt as [[] ex|ex|ex [| | |[|err]]|ex|ex|ex|ex|ex err];
    cbn in Hpt; try done; injection Hpt as -> -> -> _; cbn.
  - destruct (grantable (held s) outer_name Exclusive) eqn:Hg; [done|].
    intros _. repeat split. by exists ex.
  - by destruct (grantable (held s) inner_name Exclusive).
  - by destruct (grantable (held s) inner_name (marker_mode ex)).
Qed.

Lemma only_the_outer_request_waits_witness :
  outer_name = outer_name ∧ Exclusive = Exclusive ∧ false = false ∧
  grantable [mkHeld 0 outer_lock] outer_name Exclusive = false ∧
  ∃ exclusive, maybeReset true true = maybeReset true exclusive.
Proof.
  eapply (only_the_outer_request_waits [(true, false); (true, true)]
            (mkSystem _ [mkHeld 0 outer_lock]) 1 _ _ _ _ Fulfilled).
  - eapply (exec_reachable _ [Step 0 Fulfilled]);
      [apply reachable_init|reflexivity].
  - reflexivity.
  - reflexivity.
Defined.

(** ** The class name of a module path *)

Lemma append_cons (x : ascii) (a b : string) :
  String x a +:+ b = String x (a +:+ b).
Proof. reflexivity. Qed.

Lemma append_nil (b : string) : "" +:+ b = b.
Proof. reflexivity. Qed.

Lemma length_append (a b : string) :
  String.length (a +:+ b) = (String.length a + String.length b)%nat.
Proof.
  induction a as [|x a IH]; [done|]. rewrite append_cons. cbn. by rewrite IH.
Qed.

Lemma append_assoc (a b c : string) : (a +:+ b) +:+ c = a +:+ b +:+ c.
Proof.
  induction a as [|x a IH]; [done|]. rewrite !append_cons. by rewrite IH.
Qed.

Lemma append_inv_tail (a b t : string) : a +:+ t = b +:+ t → a = b.
Proof.
  revert b. induction a as [|x a IH]; intros [|y b];
    rewrite ?append_cons, ?append_nil; intros H.
  - done.
  - apply (f_equal String.length) in H. cbn in H. rewrite length_append in H. lia.
  - apply (f_equal String.length) in H. cbn in H. rewrite length_append in H. lia.
  - injection H as -> H. by rewrite (IH b H).
Qed.

Lemma slash_free_append (a b : string) :
  slash_free (a +:+ b) = slash_free a && slash_free b.
Proof.
  induction a as [|x a IH]; [done|]. rewrite append_cons. cbn. rewrite IH.
  by rewrite andb_assoc.
Qed.

Lemma append_js_not_js (g : string) : g ≠ "" → String.eqb (g +:+ ".js") ".js" = false.
Proof.
  intros Hg. apply String.eqb_neq. intros H.
  apply (f_equal String.length) in H. rewrite length_append in H. cbn in H.
  destruct g; [done|]. cbn in H. lia.
Qed.

Lemma class_at_spec s g :
  class_at s = Some g ↔ s = g +:+ ".js" ∧ g ≠ "" ∧ slash_free g = true.
Proof.
  split.
  - revert g. induction s as [|c s IH]; intros g; cbn; [done|].
    destruct (Ascii.eqb c "/") eqn:Hc; [done|].
    destruct (String.eqb s ".js") eqn:Hs.
    + apply String.eqb_eq in Hs as ->. intros [= <-]. cbn. by rewrite Hc.
    + destruct (class_at s) as [g'|]; [|done]. cbn. intros [= <-].
      destruct (IH g' eq_refl) as (-> & ? & Hf). cbn. by rewrite Hc, Hf.
  - intros (-> & Hg & Hf). induction g as [|c g IH]; [done|].
    rewrite append_cons. cbn in *.
    apply andb_prop in Hf as [Hc Hf]. apply negb_true_iff in Hc.
    rewrite Hc. destruct g as [|c' g]; [done|].
    rewrite append_js_not_js by done. by rewrite IH.
Qed.

(** X4: the class name read off a module path is the part of the path
    after its last slash and before the final [.js], which must not be
    empty; a path that does not end so has no match. *)
Theorem match_class_spec s g :
  match_class s = Some g ↔
  ∃ pre, s = pre +:+ g +:+ ".js" ∧ g ≠ "" ∧ slash_free g = true ∧
         (pre = "" ∨ ∃ pre', pre = pre' +:+ "/").
Proof.
  split.
  - revert g. induction s as [|c s IH]; intros g; [done|].
    cbn [match_class]. destruct (class_at (String c s)) as [g'|] eqn:Hat.
    + intros [= ->]. apply class_at_spec in Hat as (? & ? & ?). exists "". eauto.
    + intros (pre & -> & Hg & Hf & Hpre)%IH. exists (String c pre).
      split; [done|]. split; [done|]. split; [done|]. right.
      destruct Hpre as [->|[pre' ->]]; [|by exists (String c pre')].
      exists "". rewrite append_nil. f_equal.
      cbn in Hat. destruct (Ascii.eqb_spec c "/") as [->|_]; [done|].
      rewrite append_nil, append_js_not_js in Hat by done.
      assert (class_at (g +:+ ".js") = Some g) as Hg' by by apply class_at_spec.
      by rewrite Hg' in Hat.
  - intros (pre & -> & Hg & Hf & Hpre). induction pre as [|c pre IH].
    + assert (class_at (g +:+ ".js") = Some g) as Hg' by by apply class_at_spec.
      rewrite append_nil. destruct g as [|c g]; [done|].
      rewrite append_cons in *. cbn [match_class]. by rewrite Hg'.
    + rewrite append_cons. cbn [match_class].
      destruct (class_at (String c (pre +:+ g +:+ ".js"))) as [g'|] eqn:Hat.
      * exfalso. apply class_at_spec in Hat as (Heq & _ & Hf').
        rewrite <-append_cons, <-append_assoc in Heq.
        apply append_inv_tail in Heq as <-.
        rewrite slash_free_append in Hf'. apply andb_prop in Hf' as [Hf' _].
        destruct Hpre as [?|[pre' Hpre]]; [done|]. rewrite Hpre in Hf'.
        rewrite slash_free_append in Hf'. apply andb_prop in Hf' as [_ Hf'].
        done.
      * apply IH. destruct Hpre as [?|[pre' Hpre]]; [done|].
        destruct pre' as [|c' pre'].
        { rewrite append_nil in Hpre. injection Hpre as -> ->. by left. }
        right. exists pre'. rewrite append_cons in Hpre. by injection Hpre.
Qed.

(** ** The tables of builds and file systems *)

Section Map.
Context {V : Type}.
Implicit Types m entries : list (string * V).

Lemma Map_get_set k v m k' :
  Map_get (Map_set k v m) k' = if String.eqb k' k then Some v else Map_get m k'.
Proof.
  induction m as [|[k0 v0] m IH]; cbn; [done|].
  destruct (String.eqb_spec k k0) as [->|Hne]; cbn.
  - by destruct (String.eqb k' k0).
  - rewrite IH. destruct (String.eqb_spec k' k0) as [->|?]; [|done].
    by destruct (String.eqb_spec k0 k) as [->|_].
Qed.

Lemma Map_get_app m m' k :
  Map_get (m ++ m') k
  = match Map_get m k with
    | Some v => Some v
    | None => Map_get m' k
    end.
Proof.
  induction m as [|[k0 v0] m IH]; cbn; [done|]. by destruct (String.eqb k k0).
Qed.

(** The value of a key is the one of its last entry. *)
Lemma Map_get_foldl entries m k :
  Map_get (foldl (λ m kv, Map_set kv.1 kv.2 m) m entries) k
  = match Map_get (reverse entries) k with
    | Some v => Some v
    | None => Map_get m k
    end.
Proof.
  revert m. induction entries as [|[k0 v0] entries IH]; intros m; [done|].
  rewrite reverse_cons, Map_get_app. cbn [foldl]. rewrite IH, Map_get_set.
  destruct (Map_get (reverse entries) k); [done|]. cbn.
  by destruct (String.eqb k k0).
Qed.

Lemma Map_get_new_Map entries k :
  Map_get (new_Map entries) k = Map_get (reverse entries) k.
Proof. unfold new_Map. rewrite Map_get_foldl. by destruct (Map_get _ _). Qed.

Lemma Map_get_Some m k v :
  Map_get m k = Some v ↔
  ∃ m1 m2, m = m1 ++ (k, v) :: m2 ∧ Forall (λ kv, kv.1 ≠ k) m1.
Proof.
  split.
  - induction m as [|[k0 v0] m IH]; cbn; [done|].
    destruct (String.eqb_spec k k0) as [->|Hne].
    + intros [= ->]. by exists [], m.
    + intros (m1 & m2 & -> & ?)%IH. exists ((k0, v0) :: m1), m2.
      split; [done|]. constructor; [cbn; congruence|done].
  - intros (m1 & m2 & -> & Hm1). induction Hm1 as [|[k0 v0] m1 Hk _ IH]; cbn.
    + by rewrite String.eqb_refl.
    + cbn in Hk. by destruct (String.eqb_spec k k0) as [->|_].
Qed.

End Map.

(** X5: the table of file systems is keyed by the names of the
    configurations: looking a name up gives the last configuration of that
    name in the list, and nothing when no configuration has it. *)
Theorem configs_by_name_lookup configs n c :
  Map_get (configs_by_name configs) n = Some c ↔
  ∃ before after,
    configs = before ++ c :: after ∧ Config.name c = n ∧
    Forall (λ c', Config.name c' ≠ n) after.
Proof.
  unfold configs_by_name. rewrite Map_get_new_Map, Map_get_Some. split.
  - intros (m1 & m2 & Hrev & Hm1).
    apply (f_equal reverse) in Hrev. rewrite reverse_involutive in Hrev.
    rewrite reverse_app, reverse_cons, <-(assoc_L (++)) in Hrev. cbn in Hrev.
    apply fmap_app_inv in Hrev as (before & rest & Hb & Hrest & ->).
    destruct rest as [|c' after]; [done|]. cbn in Hrest.
    injection Hrest as Hn -> Hafter.
    exists before, after. split; [done|]. split; [done|].
    apply Forall_reverse in Hm1. rewrite Hafter in Hm1.
    rewrite Forall_fmap in Hm1. exact Hm1.
  - intros (before & after & -> & <- & Hafter).
    exists (reverse ((λ config, (Config.name config, config)) <$> after)),
           (reverse ((λ config, (Config.name config, config)) <$> before)).
    split.
    + rewrite fmap_app, reverse_app, fmap_cons, reverse_cons.
      by rewrite <-(assoc_L (++)).
    + apply Forall_reverse. rewrite Forall_fmap. exact Hafter.
Qed.

(** ** The start of the worker *)


(** The configuration of a worker is one of the list. *)
Lemma config_cases sp c :
  config sp = Some c → c ∈ config_list.
Proof.
  unfold config. destruct (configName sp) as [n|]; [|done]. cbn.
  repeat case_match; intros [= <-]; unfold config_list;
    rewrite !elem_of_cons; tauto.
Qed.

(** The listed configurations leave the class and the arguments to the
    defaults, and the file of each module is named after the configuration. *)
Lemma listed_config c :
  c ∈ config_list →
  Config.vfsClass c = None ∧ Config.vfsArgs c = None ∧
  ∀ m, truthy (Config.vfsModule c) = Some m → match_class m = Some (Config.name c).
Proof.
  unfold config_list. rewrite !elem_of_cons, elem_of_nil.
  intros [->|[->|[->|[->|[->|[->|[->|[]]]]]]]].
  all: split; [done|]; split; [done|]; intros m; vm_compute; by intros [= <-].
Qed.

Ltac answer_calls w :=
  repeat match goal with
  | |- context [w ?c] => destruct (w c) eqn:?; cbn
  end.

Lemma startup_calls sp c w :
  config sp = Some c →
  startup sp w
  = match (attempt w (start_calls sp c)).2 with
    | None => ((attempt w (start_calls sp c)).1 ++ [Posted Ready], inr ())
    | Some e => ((attempt w (start_calls sp c)).1, inl (Rejection e))
    end.
Proof.
  intros Hc.
  destruct (listed_config c (config_cases _ _ Hc)) as (Hclass & Hargs & Hmatch).
  unfold startup, start_calls, className, vfsArgs. rewrite Hc, Hclass, Hargs.
  clear Hc Hclass Hargs.
  change (fill_module <$> default [ArgString "demo"; MODULE] None)
    with [ArgString "demo"; ArgModule].
  generalize (lookup_key BUILDS (buildName sp)). intros build.
  generalize (dbName sp). intros db.
  destruct (truthy (Config.vfsModule c)) as [m|] eqn:Hm;
    [rewrite (Hmatch m eq_refl)|]; clear Hmatch;
    generalize (Config.name c); intros n;
    destruct (String.eqb n "AccessHandlePoolVFS").
  all: unfold mbind, start_bind, perform, post, mret, start_ret; cbn.
  all: answer_calls w; reflexivity.
Qed.

Lemma attempt_ok w calls :
  (attempt w calls).2 = None →
  (attempt w calls).1 = Called <$> calls ∧ Forall (λ c, w c = None) calls.
Proof.
  induction calls as [|c calls IH]; cbn; [done|].
  destruct (w c) eqn:Hc; cbn; [done|]. intros [-> ?]%IH. by split; [|constructor].
Qed.

Lemma attempt_fails w calls e :
  (attempt w calls).2 = Some e →
  ∃ before c after,
    calls = before ++ c :: after ∧
    (attempt w calls).1 = Called <$> (before ++ [c]) ∧
    Forall (λ c, w c = None) before ∧ w c = Some e.
Proof.
  induction calls as [|c calls IH]; cbn; [done|].
  destruct (w c) eqn:Hc; cbn.
  - intros [= ->]. by exists [], c, calls.
  - intros (before & c' & after & -> & -> & ? & ?)%IH.
    exists (c :: before), c', after. split; [done|]. split; [done|].
    by split; [constructor|].
Qed.

Lemma Forall_succeeded w calls :
  Forall (λ c, w c = None) calls → Forall (succeeded w) (Called <$> calls).
Proof.
  intros H. rewrite Forall_fmap. eapply Forall_impl; [done|].
  intros c ?. by exists c.
Qed.

Lemma config_name sp c :
  config sp = Some c → configName sp = Some (Config.name c).
Proof.
  unfold config. destruct (configName sp) as [n|]; [|done]. cbn.
  repeat case_match; intros [= <-]; cbn; f_equal;
    match goal with H : String.eqb n _ = true |- _ =>
      by apply String.eqb_eq in H end.
Qed.

(** The events of the start, for the three ways [maybeReset] can end. *)
Lemma worker_main_events sp script w :
  (worker_main sp script w).2
  = match (run (reset_of sp) script).2 with
    | Returned _ =>
        match config sp with
        | Some c =>
            (attempt w (start_calls sp c)).1 ++
            match (attempt w (start_calls sp c)).2 with
            | None => [Posted Ready]
            | Some e => report (Rejection e)
            end
        | None => report ConfigUndefined
        end
    | Thrown e => report_rejection (run (reset_of sp) script).1 e
    | Pending => []
    end.
Proof.
  unfold worker_main. cbn. destruct (run _ _).2; [|done|done].
  destruct (config sp) as [c|] eqn:Hc.
  - rewrite (startup_calls sp c w Hc). by destruct (attempt w _).2.
  - unfold startup. by rewrite Hc.
Qed.

(** X6: once [maybeReset] has returned, a worker with a listed
    configuration makes the calls of [start_calls] in order, up to the first
    that fails; it then posts the ready signal if none failed, and otherwise
    logs and posts the error of the failed call. *)
Theorem start_makes_configured_calls sp script w c :
  (run (reset_of sp) script).2 = Returned () →
  config sp = Some c →
  (worker_main sp script w).2
  = (attempt w (start_calls sp c)).1 ++
    match (attempt w (start_calls sp c)).2 with
    | None => [Posted Ready]
    | Some e => [ConsoleError (Rejection e); Posted (Failure (Rejection e))]
    end.
Proof. intros Hr Hc. by rewrite worker_main_events, Hr, Hc. Qed.

Lemma start_makes_configured_calls_witness :
  (worker_main [("config", "MemoryVFS"); ("db", "test")] []
     (λ c, match c with VfsRegister _ => Some (Error "no VFS") | _ => None end)).2
  = [Called (Import (Some "../dist/wa-sqlite.mjs")); Called ModuleFactory;
     Called SQLiteFactory; Called (Import (Some "../src/examples/MemoryVFS.js"));
     Called (VfsCreate "MemoryVFS" [ArgString "demo"; ArgModule]);
     Called (VfsRegister true);
     ConsoleError (Rejection (Error "no VFS"));
     Posted (Failure (Rejection (Error "no VFS")))].
Proof.
  exact (start_makes_configured_calls [("config", "MemoryVFS"); ("db", "test")] []
           (λ c, match c with VfsRegister _ => Some (Error "no VFS") | _ => None end)
           (plain_config "MemoryVFS" (Some "../src/examples/MemoryVFS.js"))
           eq_refl eq_refl).
Defined.

(** X7: whenever [maybeReset] returns, or rejects with an [Error] (not
    with the event of a failed request to delete a database), the start
    posts exactly one message, as its last event; the message is the ready
    signal exactly when all that came before are calls that went well, among
    them the opening of the database and the registration of the listener;
    an error message is preceded by the log of the same error. *)
Theorem start_posts_once sp script w :
  (run (reset_of sp) script).2 ≠ Pending →
  rejected_with_event (run (reset_of sp) script).1 = false →
  ∃ t m,
    (worker_main sp script w).2 = t ++ [Posted m] ∧
    (∀ m', Posted m' ∉ t) ∧
    (m = Ready ↔ Forall (succeeded w) t) ∧
    (m = Ready →
     Called (OpenV2 (dbName sp)) ∈ t ∧ Called AddMessageListener ∈ t) ∧
    (∀ f, m = Failure f → last t = Some (ConsoleError f)).
Proof.
  intros Hr Hev. rewrite worker_main_events. unfold report_rejection.
  rewrite Hev. clear Hev.
  assert (∀ t f, Forall (λ ev, ∃ c, ev = Called c) t →
            ∃ t' m, t ++ report f = t' ++ [Posted m] ∧
                    (∀ m', Posted m' ∉ t') ∧
                    (m = Ready ↔ Forall (succeeded w) t') ∧
                    (m = Ready → Called (OpenV2 (dbName sp)) ∈ t'
                                 ∧ Called AddMessageListener ∈ t') ∧
                    (∀ f, m = Failure f → last t' = Some (ConsoleError f)))
    as Hreport.
  { intros t f Ht. exists (t ++ [ConsoleError f]), (Failure f).
    split; [by rewrite <-(assoc_L (++))|]. split.
    { intros m' [Hin|Hin]%elem_of_app.
      - rewrite Forall_forall in Ht. by destruct (Ht _ Hin).
      - by apply list_elem_of_singleton in Hin. }
    split.
    { split; [done|]. intros [_ Hf]%Forall_app.
      apply Forall_singleton in Hf as (? & ? & _). done. }
    split; [done|]. intros ? [= <-]. by rewrite last_snoc. }
  destruct (run _ _).2 as [[]|e|]; [| |done].
  - destruct (config sp) as [c|]; [|by apply (Hreport [])].
    destruct (attempt w (start_calls sp c)).2 as [e|] eqn:Ha.
    + apply attempt_fails in Ha as (before & c' & after & _ & -> & _ & _).
      apply Hreport. rewrite Forall_fmap. apply Forall_true. intros x. by exists x.
    + apply attempt_ok in Ha as [-> Hok].
      exists (Called <$> start_calls sp c), Ready. split; [done|]. split.
      { intros m' (? & ? & _)%list_elem_of_fmap. done. }
      split; [by split; [intros _; apply Forall_succeeded|]|].
      split; [|done]. intros _. unfold start_calls.
      rewrite !fmap_app, !elem_of_app. cbn. rewrite !elem_of_cons.
      split; right; right; right; auto.
  - by apply (Hreport []).
Qed.

Lemma start_posts_once_witness :
  ∃ t m,
    (worker_main [("reset", "")] [ALock true; ALock false; ALock false]
       (λ _, None)).2 = t ++ [Posted m] ∧
    (∀ m', Posted m' ∉ t) ∧
    (m = Ready ↔ Forall (succeeded (λ _, None)) t) ∧
    (m = Ready →
     Called (OpenV2 (dbName [("reset", "")])) ∈ t ∧ Called AddMessageListener ∈ t) ∧
    (∀ f, m = Failure f → last t = Some (ConsoleError f)).
Proof.
  apply (start_posts_once [("reset", "")] [ALock true; ALock false; ALock false]
           (λ _, None)).
  - vm_compute. discriminate.
  - reflexivity.
Defined.

(** A call that failed is not among calls that went well. *)
Lemma failed_call_position w t rest t1 c e t2 :
  Forall (succeeded w) t → w c = Some e →
  t ++ rest = t1 ++ Called c :: t2 →
  ∃ t1', t1 = t ++ t1' ∧ rest = t1' ++ Called c :: t2.
Proof.
  intros Ht Hc. revert t1.
  induction Ht as [|ev t (c0 & -> & Hc0) _ IH]; intros t1 Heq; cbn in *.
  - by exists t1.
  - destruct t1 as [|ev1 t1]; cbn in Heq.
    + injection Heq as <- _. congruence.
    + injection Heq as <- Heq. destruct (IH t1 Heq) as (t1' & -> & ->).
      by exists t1'.
Qed.

(** X8: nothing is called after a call that failed: what follows it is
    the log and the post of its error. *)
Theorem start_stops_at_failed_call sp script w t1 c t2 e :
  (worker_main sp script w).2 = t1 ++ Called c :: t2 →
  w c = Some e →
  t2 = [ConsoleError (Rejection e); Posted (Failure (Rejection e))].
Proof.
  rewrite worker_main_events. intros Hev Hc.
  destruct (run _ _).2 as [[]|e'|].
  - destruct (config sp) as [cfg|].
    + destruct (attempt w (start_calls sp cfg)).2 as [e'|] eqn:Ha.
      * apply attempt_fails in Ha as (before & c' & after & _ & Hcalls & Hok & Hc').
        rewrite Hcalls, fmap_app, <-(assoc_L (++)) in Hev. cbn in Hev.
        apply Forall_succeeded in Hok.
        destruct (failed_call_position _ _ _ _ _ _ _ Hok Hc Hev) as (t1' & _ & Hrest).
        by destruct t1' as [|? [|? [|? [|? ?]]]]; simplify_eq/=.
      * apply attempt_ok in Ha as [Hcalls Hok]. rewrite Hcalls in Hev.
        apply Forall_succeeded in Hok.
        destruct (failed_call_position _ _ _ _ _ _ _ Hok Hc Hev) as (t1' & _ & Hrest).
        by destruct t1' as [|? [|? ?]].
    + by destruct t1 as [|? [|? [|? ?]]].
  - unfold report_rejection in Hev.
    destruct (rejected_with_event _); by destruct t1 as [|? [|? [|? ?]]].
  - by destruct t1.
Qed.

Lemma start_stops_at_failed_call_witness :
  [ConsoleError (Rejection (Error "no module"));
   Posted (Failure (Rejection (Error "no module")))]
  = [ConsoleError (Rejection (Error "no module"));
     Posted (Failure (Rejection (Error "no module")))].
Proof.
  apply (start_stops_at_failed_call [] []
           (λ c, match c with ModuleFactory => Some (Error "no module") | _ => None end)
           [Called (Import (Some "../dist/wa-sqlite.mjs"))] ModuleFactory).
  - reflexivity.
  - reflexivity.
Defined.

(** Every call of the start is one of [start_calls], made after
    [maybeReset] has returned. *)
Lemma called_is_planned sp script w x :
  Called x ∈ (worker_main sp script w).2 →
  (run (reset_of sp) script).2 = Returned () ∧
  ∃ c, config sp = Some c ∧ x ∈ start_calls sp c.
Proof.
  rewrite worker_main_events. unfold report.
  destruct (run (reset_of sp) script).2 as [[]|e|] eqn:Hr.
  - intros Hin. split; [done|]. destruct (config sp) as [c|].
    + exists c. split; [done|]. apply elem_of_app in Hin as [Hin|Hin].
      * destruct (attempt w (start_calls sp c)).2 as [e|] eqn:Ha.
        -- apply attempt_fails in Ha
             as (before & c' & after & Hsplit & Hcalls & _).
           rewrite Hcalls in Hin. rewrite Hsplit.
           apply list_elem_of_fmap in Hin as (? & [= <-] & Hin).
           rewrite elem_of_app in *. rewrite elem_of_cons.
           destruct Hin as [?|Hin]; [auto|].
           apply list_elem_of_singleton in Hin as ->. auto.
        -- apply attempt_ok in Ha as [Hcalls _]. rewrite Hcalls in Hin.
           by apply list_elem_of_fmap in Hin as (? & [= <-] & Hin).
      * destruct (attempt w (start_calls sp c)).2; cbn in Hin;
          rewrite ?elem_of_cons, elem_of_nil in Hin; intuition congruence.
    + rewrite !elem_of_cons, elem_of_nil in Hin. intuition congruence.
  - unfold report_rejection, report. destruct (rejected_with_event _);
      rewrite !elem_of_cons, elem_of_nil; intuition congruence.
  - by intros ?%elem_of_nil.
Qed.

Ltac planned_call H :=
  unfold start_calls in H; rewrite !elem_of_app in H;
  destruct H as [H|[H|[H|H]]];
  [ destruct (String.eqb _ "AccessHandlePoolVFS") eqn:?
  | | destruct (truthy _) | ];
  rewrite ?elem_of_cons, ?elem_of_nil in H.

(** X9: the database is opened only after [maybeReset] has returned, under
    the name given by the [db] parameter; if a reset was asked for, the
    worker then holds its marker on the inner lock and no other lock. *)
Theorem database_opened_after_marking sp script w db :
  Called (OpenV2 db) ∈ (worker_main sp script w).2 →
  db = dbName sp ∧
  (run (reset_of sp) script).2 = Returned () ∧
  (searchParams_has sp "reset" = true →
   locks_held (run (reset_of sp) script).1
   = [marker_lock (searchParams_has sp "exclusive")]).
Proof.
  intros (Hr & c & _ & Hcall)%called_is_planned.
  split; [|split; [done|]].
  - planned_call Hcall; intuition congruence.
  - intros Hreset. pose proof (locks_held_at_end
      (searchParams_has sp "exclusive") script) as Hheld.
    unfold reset_of in *. rewrite Hreset in *. by rewrite Hr in Hheld.
Qed.

Lemma database_opened_after_marking_witness :
  "hello" = dbName [("reset", ""); ("exclusive", "")] ∧
  (run (reset_of [("reset", ""); ("exclusive", "")])
     [ALock true; ALock false; ALock true]).2 = Returned () ∧
  (searchParams_has [("reset", ""); ("exclusive", "")] "reset" = true →
   locks_held (run (reset_of [("reset", ""); ("exclusive", "")])
                 [ALock true; ALock false; ALock true]).1
   = [marker_lock (searchParams_has [("reset", ""); ("exclusive", "")]
                     "exclusive")]).
Proof.
  apply (database_opened_after_marking [("reset", ""); ("exclusive", "")]
           [ALock true; ALock false; ALock true] (λ _, None) "hello").
  apply list_elem_of_In. vm_compute. tauto.
Defined.

(** X10: files are created only for the configuration
    [AccessHandlePoolVFS], and they are the database and its journal. *)
Theorem files_only_for_access_handle_pool sp script w f :
  Called (GetFileHandle f) ∈ (worker_main sp script w).2 →
  configName sp = Some "AccessHandlePoolVFS" ∧
  (f = dbName sp ∨ f = dbName sp +:+ "-journal").
Proof.
  intros (_ & c & Hc%config_name & Hcall)%called_is_planned.
  planned_call Hcall; try (intuition congruence).
  match goal with H : String.eqb _ _ = true |- _ =>
    apply String.eqb_eq in H; rewrite H in Hc end.
  split; [done|]. intuition congruence.
Qed.

Lemma files_only_for_access_handle_pool_witness :
  configName [("config", "AccessHandlePoolVFS"); ("db", "t")]
  = Some "AccessHandlePoolVFS" ∧
  ("t-journal" = dbName [("config", "AccessHandlePoolVFS"); ("db", "t")] ∨
   "t-journal"
   = dbName [("config", "AccessHandlePoolVFS"); ("db", "t")] +:+ "-journal").
Proof.
  apply (files_only_for_access_handle_pool
           [("config", "AccessHandlePoolVFS"); ("db", "t")] [] (λ _, None)).
  apply list_elem_of_In. vm_compute. tauto.
Defined.

(** X11: a file system is created only under the name of the chosen
    configuration, with the name of the directory and the module as
    arguments: the placeholder [MODULE] never reaches a constructor. *)
Theorem vfs_created_as_configured sp script w cn args :
  Called (VfsCreate cn args) ∈ (worker_main sp script w).2 →
  configName sp = Some cn ∧ args = [ArgString "demo"; ArgModule].
Proof.
  intros (_ & c & Hc%config_name & Hcall)%called_is_planned.
  planned_call Hcall; try (intuition congruence).
Qed.

Lemma vfs_created_as_configured_witness :
  configName [("config", "FLOOR")] = Some "FLOOR" ∧
  [ArgString "demo"; ArgModule] = [ArgString "demo"; ArgModule].
Proof.
  apply (vfs_created_as_configured [("config", "FLOOR")] [] (λ _, None)).
  apply list_elem_of_In. vm_compute. tauto.
Defined.

(** X12: a [config] parameter that names no listed configuration makes the
    start fail before any call: the error is logged and posted, nothing is
    imported or opened. *)
Theorem unknown_config_reported sp script w n :
  (run (reset_of sp) script).2 = Returned () →
  configName sp = Some n →
  n ∉ Config.name <$> config_list →
  (worker_main sp script w).2
  = [ConsoleError ConfigUndefined; Posted (Failure ConfigUndefined)].
Proof.
  intros Hr Hn Hnot. rewrite worker_main_events, Hr.
  assert (config sp = None) as ->; [|done].
  unfold config. rewrite Hn. cbn.
  repeat case_match; try done; exfalso; apply Hnot;
    match goal with H : String.eqb n _ = true |- _ =>
      apply String.eqb_eq in H as -> end;
    cbn; rewrite !elem_of_cons; tauto.
Qed.

Lemma unknown_config_reported_witness :
  (worker_main [("config", "NoSuchVFS")] [] (λ _, None)).2
  = [ConsoleError ConfigUndefined; Posted (Failure ConfigUndefined)].
Proof.
  apply (unknown_config_reported [("config", "NoSuchVFS")] [] (λ _, None)
           "NoSuchVFS").
  - reflexivity.
  - reflexivity.
  - rewrite list_elem_of_In. vm_compute. intuition discriminate.
Defined.

(** X13: without [build] and [config] parameters, or with empty ones, a
    worker whose [maybeReset] has returned takes the first build and the
    first configuration: it imports the default build, calls the module
    factory and the SQLite factory, registers no file system, opens the
    database and adds the listener, stopping at the first call that fails;
    it then posts the ready signal, or logs and posts the error. *)
Theorem default_start_calls sp script w :
  searchParams_get sp "build" = None ∨ searchParams_get sp "build" = Some "" →
  searchParams_get sp "config" = None ∨ searchParams_get sp "config" = Some "" →
  (run (reset_of sp) script).2 = Returned () →
  (worker_main sp script w).2
  = (attempt w [Import (Some "../dist/wa-sqlite.mjs"); ModuleFactory;
                SQLiteFactory; OpenV2 (dbName sp); AddMessageListener]).1 ++
    match (attempt w [Import (Some "../dist/wa-sqlite.mjs"); ModuleFactory;
                      SQLiteFactory; OpenV2 (dbName sp); AddMessageListener]).2
    with
    | None => [Posted Ready]
    | Some e => [ConsoleError (Rejection e); Posted (Failure (Rejection e))]
    end.
Proof.
  intros Hb Hc Hr. rewrite worker_main_events, Hr.
  assert (config sp = Some (plain_config "default" None)) as ->.
  { unfold config, configName. by destruct Hc as [-> | ->]. }
  assert (start_calls sp (plain_config "default" None)
          = [Import (Some "../dist/wa-sqlite.mjs"); ModuleFactory; SQLiteFactory;
             OpenV2 (dbName sp); AddMessageListener]) as ->; [|done].
  unfold start_calls, buildName. by destruct Hb as [-> | ->].
Qed.

Lemma default_start_calls_witness :
  (worker_main [("build", ""); ("db", "")] [] (λ _, None)).2
  = [Called (Import (Some "../dist/wa-sqlite.mjs")); Called ModuleFactory;
     Called SQLiteFactory; Called (OpenV2 ""); Called AddMessageListener;
     Posted Ready].
Proof.
  exact (default_start_calls [("build", ""); ("db", "")] [] (λ _, None)
           (or_intror eq_refl) (or_introl eq_refl) eq_refl).
Defined.

(** ** Queries *)

Section queries.
Context {row number : Type}.
Implicit Types (s : statement row) (q : query_run row).

Lemma push_all (acc l : list row) : foldl (λ rows r, rows ++ [r]) acc l = acc ++ l.
Proof.
  revert acc. induction l as [|r l IH]; intros acc; cbn.
  - by rewrite (right_id_L [] (++)).
  - by rewrite IH, <-(assoc_L (++)).
Qed.

Lemma run_statements_ok (acc : list (result row)) ss :
  Forall (λ s, stmt_throws s = None) ss →
  run_statements acc ss None
  = inr (acc ++ ((λ s, mkResult (stmt_columns s) (stmt_rows s)) <$>
                 filter (λ s, stmt_columns s ≠ []) ss)).
Proof.
  intros Hok. revert acc. induction Hok as [|s ss Hs _ IH]; intros acc.
  - cbn. by rewrite (right_id_L [] (++)).
  - cbn [run_statements]. unfold run_statement, fetch_rows.
    rewrite Hs, push_all, filter_cons. cbn [app].
    destruct (stmt_columns s) as [|col cols] eqn:Hcols.
    + rewrite decide_True by done. rewrite IH. by rewrite decide_False by auto.
    + rewrite decide_False by done. rewrite IH. rewrite decide_True by done.
      by rewrite fmap_cons, <-(assoc_L (++)), Hcols.
Qed.

Lemma run_statements_throws (acc : list (result row)) ss1 s ss2 it e :
  Forall (λ s, stmt_throws s = None) ss1 → stmt_throws s = Some e →
  run_statements acc (ss1 ++ s :: ss2) it = inl e.
Proof.
  intros Hok Hs. revert acc. induction Hok as [|s1 ss1 Hs1 _ IH]; intros acc; cbn.
  - unfold run_statement, fetch_rows. by rewrite Hs.
  - unfold run_statement at 1, fetch_rows. rewrite Hs1. cbn. apply IH.
Qed.

Lemma run_statements_iteration_throws (acc : list (result row)) ss e :
  Forall (λ s, stmt_throws s = None) ss →
  run_statements acc ss (Some e) = inl e.
Proof.
  intros Hok. revert acc. induction Hok as [|s1 ss1 Hs1 _ IH]; intros acc; cbn.
  - done.
  - unfold run_statement at 1, fetch_rows. rewrite Hs1. cbn. apply IH.
Qed.

(** X14: when no step and no preparation throws, one message is posted,
    with one result for each statement that has columns, in the order of the
    statements, holding all the rows of the statement; statements without
    columns leave no result. *)
Theorem query_posts_results q (elapsed : number) :
  Forall (λ s, stmt_throws s = None) (statements q) →
  iteration_throws q = None →
  on_message q elapsed
  = [PostResults
       ((λ s, mkResult (stmt_columns s) (stmt_rows s)) <$>
        filter (λ s, stmt_columns s ≠ []) (statements q))
       elapsed].
Proof.
  intros Hok Hit. unfold on_message. rewrite Hit.
  by rewrite (run_statements_ok [] _ Hok).
Qed.

(** X15: when a step of a statement throws, or the preparation of the next
    statement does, the results gathered so far are dropped: the error is
    logged and posted, and it is the only message. *)
Theorem query_error_drops_results q (elapsed : number) e :
  (∃ ss1 s ss2,
     statements q = ss1 ++ s :: ss2 ∧
     Forall (λ s, stmt_throws s = None) ss1 ∧ stmt_throws s = Some e) ∨
  (Forall (λ s, stmt_throws s = None) (statements q) ∧
   iteration_throws q = Some e) →
  on_message q elapsed = [LogError e; PostError e].
Proof.
  unfold on_message. intros [(ss1 & s & ss2 & -> & Hok & Hs)|[Hok ->]].
  - by rewrite (run_statements_throws [] _ _ _ _ _ Hok Hs).
  - by rewrite (run_statements_iteration_throws [] _ _ Hok).
Qed.

End queries.

Lemma query_posts_results_witness :
  on_message
    (mkQueryRun [mkStatement [] None []; mkStatement [[1]; [2]] None ["a"]] None)
    7
  = [PostResults [mkResult ["a"] [[1]; [2]]] 7].
Proof.
  apply (query_posts_results
           (mkQueryRun [mkStatement [] None [];
                        mkStatement [[1]; [2]] None ["a"]] None) 7).
  - repeat constructor.
  - reflexivity.
Defined.

Lemma query_error_drops_results_witness :
  on_message
    (mkQueryRun [mkStatement [[1]] None ["a"];
                 mkStatement [[2]] (Some (Error "constraint failed")) ["b"]] None)
    7
  = [LogError (Error "constraint failed"); PostError (Error "constraint failed")].
Proof.
  apply (query_error_drops_results
           (mkQueryRun [mkStatement [[1]] None ["a"];
                        mkStatement [[2]] (Some (Error "constraint failed")) ["b"]]
              None) 7).
  left. exists [mkStatement [[1]] None ["a"]],
          (mkStatement [[2]] (Some (Error "constraint failed")) ["b"]), [].
  split; [reflexivity|]. split; [repeat constructor|reflexivity].
Defined.

(** ** [cvtErrorToCloneable] *)

Lemma Set_add_spec s k k' : k' ∈ Set_add s k ↔ k' ∈ s ∨ k' = k.
Proof.
  unfold Set_add. case_decide.
  - split; [auto|]. by intros [?| ->].
  - rewrite elem_of_app, list_elem_of_singleton. done.
Qed.

Lemma Set_add_NoDup s k : NoDup s → NoDup (Set_add s k).
Proof.
  unfold Set_add. case_decide; [done|]. intros Hs.
  apply NoDup_app. split; [done|]. split; [|apply NoDup_singleton].
  intros x Hx ->%list_elem_of_singleton. done.
Qed.

Lemma foldl_Set_add s keys :
  NoDup s →
  NoDup (foldl Set_add s keys) ∧
  ∀ k, k ∈ foldl Set_add s keys ↔ k ∈ s ∨ k ∈ keys.
Proof.
  revert s. induction keys as [|k0 keys IH]; intros s Hs; cbn.
  - split; [done|]. intros k. rewrite elem_of_nil. tauto.
  - destruct (IH (Set_add s k0) (Set_add_NoDup _ _ Hs)) as [Hnd Hin].
    split; [done|]. intros k. rewrite Hin, Set_add_spec, elem_of_cons. tauto.
Qed.

Lemma new_Set_spec keys :
  NoDup (new_Set keys) ∧ ∀ k, k ∈ new_Set keys ↔ k ∈ keys.
Proof.
  destruct (foldl_Set_add [] keys (NoDup_nil_2)) as [Hnd Hin].
  split; [done|]. intros k. unfold new_Set. rewrite (Hin k), elem_of_nil. tauto.
Qed.

Section Map_keys.
Context {V : Type}.
Implicit Types m entries : list (string * V).

Lemma Map_get_In m k v : Map_get m k = Some v → (k, v) ∈ m.
Proof.
  induction m as [|[k0 v0] m IH]; cbn; [done|].
  destruct (String.eqb_spec k k0) as [->|_].
  - intros [= ->]. apply elem_of_cons. by left.
  - intros ?%IH. apply elem_of_cons. by right.
Qed.

Lemma Map_get_NoDup m k v :
  NoDup m.*1 → (k, v) ∈ m → Map_get m k = Some v.
Proof.
  induction m as [|[k0 v0] m IH]; cbn; [by intros _ ?%elem_of_nil|].
  intros [Hk0 Hm]%NoDup_cons [[= -> ->]|Hin]%elem_of_cons.
  - by rewrite String.eqb_refl.
  - destruct (String.eqb_spec k k0) as [->|_]; [|by apply IH].
    destruct Hk0. apply list_elem_of_fmap. by exists (k0, v).
Qed.

End Map_keys.

Section convert.
Context {value : Type} `{!JSValue value}.
Implicit Types (e : ErrorObject value) (v : value).

Lemma error_props_spec e :
  NoDup (error_props e) ∧
  ∀ k, k ∈ error_props e ↔
       (k ∈ ["name"; "message"; "stack"] ∧ get_prop e k ≠ undefined) ∨
       k ∈ (own e).*1.
Proof.
  unfold error_props.
  destruct (new_Set_spec
    (filter (λ k, get_prop e k ≠ undefined) ["name"; "message"; "stack"]
     ++ (own e).*1)) as [Hnd Hin].
  split; [done|]. intros k.
  rewrite Hin, elem_of_app, list_elem_of_filter. tauto.
Qed.

Lemma entries_spec e k v :
  (k, v) ∈ List.filter (λ kv, cloneable kv.2)
             ((λ k, (k, get_prop e k)) <$> error_props e) ↔
  k ∈ error_props e ∧ v = get_prop e k ∧ cloneable v = true.
Proof.
  rewrite list_elem_of_In, filter_In, <-list_elem_of_In, list_elem_of_fmap. cbn.
  split.
  - intros [(k' & [= -> ->] & Hin) Hc]. done.
  - intros (Hin & -> & Hc). split; [by exists k|done].
Qed.

Lemma entries_NoDup e :
  NoDup (List.filter (λ kv, cloneable kv.2)
           ((λ k, (k, get_prop e k)) <$> error_props e)).*1.
Proof.
  destruct (error_props_spec e) as [Hnd _]. revert Hnd.
  induction (error_props e) as [|k ks IH]; cbn; [constructor|].
  intros [Hk Hks]%NoDup_cons. destruct (cloneable (get_prop e k)); cbn; [|auto].
  apply NoDup_cons. split; [|auto].
  intros (kv & Hkv & Hin)%list_elem_of_fmap.
  apply list_elem_of_In, filter_In in Hin as [Hin _].
  apply list_elem_of_In, list_elem_of_fmap in Hin as (k' & -> & Hin).
  cbn in Hkv. by subst.
Qed.

(** X16: the object made from an [Error] has a property [k] exactly when
    [k] is an own property of the error, or one of [name], [message] and
    [stack] that the error has, and the value [e[k]] passes
    [structuredClone]; the property then holds that value. *)
Theorem cvtErrorToCloneable_properties e k v :
  ∃ obj,
    cvtErrorToCloneable (AnError e) = inr obj ∧
    (Map_get obj k = Some v ↔
     (k ∈ (own e).*1 ∨
      (k ∈ ["name"; "message"; "stack"] ∧ get_prop e k ≠ undefined)) ∧
     v = get_prop e k ∧ cloneable v = true).
Proof.
  eexists. split; [reflexivity|]. rewrite Map_get_new_Map.
  destruct (error_props_spec e) as [_ Hprops].
  pose proof (entries_NoDup e) as Hnd. pose proof (entries_spec e k v) as Hin.
  rewrite Hprops in Hin. split.
  - intros H%Map_get_In. rewrite elem_of_reverse in H. apply Hin in H. tauto.
  - intros H. apply Map_get_NoDup.
    + by rewrite fmap_reverse, reverse_Permutation.
    + rewrite elem_of_reverse. apply Hin. tauto.
Qed.

End convert.
